(** * salesman: station indexing, weight matrix and greedy walk of [main.py]

    A shallow embedding of the three algorithmic parts of [src/main.py]:
    the station indexer inside [main], the matrix builder [to_matr] and the
    greedy path finder [find_best] with its closures [next] and [tsp].

    Modelling conventions.
    - Python numbers are exact integers extended with [math.inf] (type
      [num]); the [int] durations are exact, and the [float] prices are
      read as exact values with the same order, which is what the
      comparisons need. The additions of the prices round: the path
      finder is also given over its arithmetic ([Arith]), with the
      binary64 floats as one instance. NaN is outside the model.
    - Station indices are natural numbers (they come from [len(v)]), so the
      wrap-around of negative list subscripts is never reached.
    - A Python [dict] is an insertion-ordered association list; a row of the
      prepared data is a record with one field per column.
    - Exceptions are explicit: every subscript that Python checks returns in
      the error monad [res].
    - The recursion of [tsp] is driven by fuel; [None] means that the fuel
      ran out, and the termination theorems show that it never does. The
      recursion limit of the interpreter is outside the model. *)

From stdpp Require Import list.
From Stdlib Require Import Sorted Floats.

(** ** Exceptions and the error monad *)

Inductive exn : Type :=
  | IndexError
  | KeyError
  | Exception_.

Inductive res (A : Type) : Type :=
  | Ok (a : A)
  | Raise (e : exn).

Arguments Ok {A} a.
Arguments Raise {A} e.

Definition bind {A B : Type} (m : res A) (k : A -> res B) : res B :=
  match m with
  | Ok a => k a
  | Raise e => Raise e
  end.

Notation "x <- m ;; k" := (bind m (fun x => k))
  (at level 100, m at next level, right associativity).

(** ** Numbers *)

Inductive num : Type :=
  | Fin (z : Z)
  | Inf.

(** [a < b] *)
Definition num_ltb (a b : num) : bool :=
  match a, b with
  | Fin x, Fin y => (x <? y)%Z
  | Fin _, Inf => true
  | Inf, _ => false
  end.

(** [a + b] on the exact numbers; the additions of floats are those of
    [float_ops] below. *)
Definition num_add (a b : num) : num :=
  match a, b with
  | Fin x, Fin y => Fin (x + y)
  | _, _ => Inf
  end.

(** Truth value of a number: [bool(a)]. *)
Definition truthy (a : num) : bool :=
  match a with
  | Fin z => negb (z =? 0)%Z
  | Inf => true
  end.

(** ** Lists and dictionaries *)

(** [l[i]] for [0 <= i] *)
Definition getitem {A : Type} (l : list A) (i : nat) : res A :=
  match l !! i with
  | Some x => Ok x
  | None => Raise IndexError
  end.

(** [l[i] = x] for [0 <= i] *)
Definition setitem {A : Type} (l : list A) (i : nat) (x : A) : res (list A) :=
  if decide (i < length l) then Ok (<[i:=x]> l) else Raise IndexError.

(** [g[i][j]] *)
Definition edge (g : list (list num)) (i j : nat) : res num :=
  row <- getitem g i ;; getitem row j.

Definition dict : Type := list (Z * nat).

(** [k in v] *)
Definition dict_mem (v : dict) (k : Z) : bool :=
  bool_decide (k ∈ v.*1).

Fixpoint dict_lookup (v : dict) (k : Z) : option nat :=
  match v with
  | [] => None
  | (k', x) :: v' => if decide (k = k') then Some x else dict_lookup v' k
  end.

(** [v[k]] *)
Definition dict_get (v : dict) (k : Z) : res nat :=
  match dict_lookup v k with
  | Some x => Ok x
  | None => Raise KeyError
  end.

(** [v[k] = x]: a present key keeps its place, a new key goes last. *)
Fixpoint dict_set (v : dict) (k : Z) (x : nat) : dict :=
  match v with
  | [] => [(k, x)]
  | (k', x') :: v' =>
      if decide (k = k') then (k', x) :: v' else (k', x') :: dict_set v' k x
  end.

(** ** Prepared data *)

(** A row of [prepare_data]: [[route, origin, destination, price, seconds]]. *)
Record row : Type := Row {
  route : Z;
  origin : Z;
  destination : Z;
  price : Z;
  seconds : Z
}.

(** ** The station indexer (the first loop of [main]) *)

(** [if s not in v: v[s] = len(v)] *)
Definition index_station (v : dict) (s : Z) : dict :=
  if dict_mem v s then v else dict_set v s (length v).

(** [for i in range(0, 2): ...] over [r[1]], [r[2]] *)
Definition index_row (v : dict) (r : row) : dict :=
  index_station (index_station v (origin r)) (destination r).

Definition station_index (data : list row) : dict :=
  fold_left index_row data [].

(** ** The weight matrix builder *)

(** The body of the loop of [to_matr] for one row [r]. *)
Definition to_matr_step (v : dict) (kind : Z) (matr : list (list num))
    (r : row) : res (list (list num)) :=
  item <- (if (kind =? 0)%Z then Ok (Fin (price r))
           else if (kind =? 1)%Z then Ok (Fin (seconds r))
           else Raise Exception_) ;;
  i <- dict_get v (origin r) ;;
  line <- getitem matr i ;;
  j <- dict_get v (destination r) ;;
  cell <- getitem line j ;;
  if num_ltb item cell then
    line' <- setitem line j item ;;
    setitem matr i line'
  else Ok matr.

Fixpoint to_matr_loop (v : dict) (kind : Z) (data : list row)
    (matr : list (list num)) : res (list (list num)) :=
  match data with
  | [] => Ok matr
  | r :: data' =>
      matr' <- to_matr_step v kind matr r ;;
      to_matr_loop v kind data' matr'
  end.

Definition to_matr (v : dict) (data : list row) (kind : Z)
    : res (list (list num)) :=
  let matr := replicate (length v) (replicate (length v) Inf) in
  to_matr_loop v kind data matr.

(** ** The greedy path finder *)

(** The [for i in range(N)] loop of [next]; [min_node] starts as
    [(-1, math.inf)] and [this_cost] as [0]. *)
Fixpoint next_loop (g : list (list num)) (seen : list bool) (node : nat)
    (range : list nat) (min_node : Z * num) (this_cost : num)
    : res ((Z * num) * num) :=
  match range with
  | [] => Ok (min_node, this_cost)
  | i :: range' =>
      s <- getitem seen i ;;
      if negb s then
        w <- edge g node i ;;
        if num_ltb w min_node.2 then
          next_loop g seen node range' (Z.of_nat i, w) w
        else next_loop g seen node range' min_node this_cost
      else next_loop g seen node range' min_node this_cost
  end.

Definition next (N : nat) (g : list (list num)) (seen : list bool)
    (node : nat) (curr_cost : num) : res (option (num * nat)) :=
  st <- next_loop g seen node (seq 0 N) ((-1)%Z, Inf) (Fin 0) ;;
  let min_node := st.1 in
  let this_cost := st.2 in
  if (min_node.1 =? -1)%Z then Ok None
  else Ok (Some (num_add curr_cost this_cost, Z.to_nat min_node.1)).

(** The state of one call of [tsp]: the two lists shared by the closures
    and the two arguments. *)
Record frame : Type := Frame {
  seen : list bool;
  path : list nat;
  node : nat;
  cost : num
}.

(** How one call of [tsp] ends: it returns, or makes its tail call. *)
Inductive outcome : Type :=
  | Return (result : option num) (seen' : list bool) (path' : list nat)
  | Recurse (fr : frame).

(** The body of [tsp] up to its tail call. *)
Definition tsp_body (N : nat) (g : list (list num)) (fr : frame)
    : res outcome :=
  seen' <- setitem (seen fr) (node fr) true ;;
  let path' := path fr ++ [node fr] in
  next_nd <- next N g seen' (node fr) (cost fr) ;;
  if length path' =? N then Ok (Return (Some (cost fr)) seen' path')
  else
    match next_nd with
    | None => Ok (Return None seen' path')
    | Some (cost', node') => Ok (Recurse (Frame seen' path' node' cost'))
    end.

(** [tsp]: the result and the final [path]; [None] when the fuel ran out. *)
Fixpoint tsp (fuel : nat) (N : nat) (g : list (list num)) (fr : frame)
    : option (res (option num * list nat)) :=
  match fuel with
  | 0 => None
  | S fuel' =>
      match tsp_body N g fr with
      | Raise e => Some (Raise e)
      | Ok (Return result _ path') => Some (Ok (result, path'))
      | Ok (Recurse fr') => tsp fuel' N g fr'
      end
  end.

(** The state in which [find_best] calls [tsp(node, cost)]. *)
Definition initial (N : nat) (node : nat) : frame :=
  Frame (replicate N false) [] node (Fin 0).

(** [result = tsp(node, cost); if not result: return None;
    return result, path] *)
Definition find_best_fuel (fuel : nat) (N : nat) (g : list (list num))
    (node : nat) : option (res (option (num * list nat))) :=
  match tsp fuel N g (initial N node) with
  | None => None
  | Some (Raise e) => Some (Raise e)
  | Some (Ok (None, _)) => Some (Ok None)
  | Some (Ok (Some result, path')) =>
      if truthy result then Some (Ok (Some (result, path')))
      else Some (Ok None)
  end.

(** [find_best] with the fuel that every walk stays within. *)
Definition find_best (N : nat) (g : list (list num)) (node : nat)
    : option (res (option (num * list nat))) :=
  find_best_fuel (S N) N g node.

(** The recursive calls of a run: [calls N g k fr fr'] when the call in
    state [fr] leads, after [k] tail calls, to the call in state [fr']. *)
Inductive calls (N : nat) (g : list (list num)) : nat -> frame -> frame -> Prop :=
  | calls_here fr : calls N g 0 fr fr
  | calls_step k fr fr' fr'' :
      calls N g k fr fr' ->
      tsp_body N g fr' = Ok (Recurse fr'') ->
      calls N g (S k) fr fr''.

(** Sum of [g[p[k]][p[k+1]]] over the consecutive pairs of [p]. *)
Fixpoint path_cost (g : list (list num)) (p : list nat) : res num :=
  match p with
  | a :: ((b :: _) as p') =>
      w <- edge g a b ;;
      c <- path_cost g p' ;;
      Ok (num_add w c)
  | _ => Ok (Fin 0)
  end.

(** Scenario matrices of the specification. *)
Definition scenario_a : list (list num) :=
  [ [Inf; Fin 10; Fin 50]; [Inf; Inf; Fin 5]; [Inf; Inf; Inf] ].

Definition scenario_b : list (list num) :=
  [ [Inf; Fin 10; Fin 50]; [Fin 1; Inf; Inf]; [Inf; Inf; Inf] ].

(** ** Predicates of the statements *)

(** What [min_node] and [this_cost] hold once the candidates below [k]
    have been scanned. *)
Definition scanned (g : list (list num)) (seen : list bool) (node : nat)
    (k : nat) (min_node : Z * num) (this_cost : num) : Prop :=
  (min_node = ((-1)%Z, Inf) /\
   forall i, i < k -> seen !! i = Some false -> edge g node i = Ok Inf)
  \/
  (exists j, j < k /\ min_node = (Z.of_nat j, this_cost) /\
     seen !! j = Some false /\ edge g node j = Ok this_cost /\
     num_ltb this_cost Inf = true /\
     forall i, i < k -> seen !! i = Some false ->
       exists w, edge g node i = Ok w /\ num_ltb w this_cost = false /\
                 (i < j -> num_ltb this_cost w = true)).

(** What a successful [next] tells about its answer. *)
Definition selected (N : nat) (g : list (list num)) (seen : list bool)
    (node : nat) (curr_cost : num) (r : option (num * nat)) : Prop :=
  match r with
  | None =>
      forall i, i < N -> seen !! i = Some false -> edge g node i = Ok Inf
  | Some (c, j) =>
      j < N /\ seen !! j = Some false /\
      exists w, edge g node j = Ok w /\ num_ltb w Inf = true /\
        c = num_add curr_cost w /\
        forall i, i < N -> seen !! i = Some false ->
          exists wi, edge g node i = Ok wi /\ num_ltb wi w = false /\
                     (i < j -> num_ltb w wi = true)
  end.

(** [g] has [N] rows of [N] cells: the subscripts of [next] are all in
    range. *)
Definition matrix_ok (N : nat) (g : list (list num)) : Prop :=
  length g = N /\ Forall (fun line => length line = N) g.

(** The visited marks and the partial path agree. *)
Definition consistent (seen : list bool) (path : list nat) : Prop :=
  forall i, count_occ Nat.eq_dec path i
            = if decide (seen !! i = Some true) then 1 else 0.

(** The invariant of the calls of [tsp]. *)
Record walk_inv (N : nat) (g : list (list num)) (start : nat) (fr : frame)
    : Prop := WalkInv {
  inv_length : length (seen fr) = N;
  inv_consistent : consistent (seen fr) (path fr);
  inv_fresh : seen fr !! node fr = Some false;
  inv_start : head (path fr ++ [node fr]) = Some start;
  inv_cost : path_cost g (path fr ++ [node fr]) = Ok (cost fr);
  inv_finite : exists z, cost fr = Fin z
}.

(** The walk is stuck in the call [fr]: the path stays short of [N] and
    every candidate that is still unvisited, once the current node is
    marked, has infinite weight. *)
Definition stuck (N : nat) (g : list (list num)) (fr : frame) : Prop :=
  S (length (path fr)) <> N /\
  forall i, i < N -> i <> node fr -> seen fr !! i = Some false ->
    edge g (node fr) i = Ok Inf.

(** The station identifiers in the order the indexer meets them. *)
Definition stations (data : list row) : list Z :=
  r ← data; [origin r; destination r].

(** The identifiers of a sequence in the order of their first occurrence. *)
Fixpoint first_seen (l : list Z) : list Z :=
  match l with
  | [] => []
  | s :: l' => s :: filter (fun x => x <> s) (first_seen l')
  end.

(** The weight of a record under a recognized dimension. *)
Definition weight (kind : Z) (r : row) : num :=
  if (kind =? 0)%Z then Fin (price r) else Fin (seconds r).

(** The record [r] is an edge from index [i] to index [j]. *)
Definition contributes (v : dict) (i j : nat) (r : row) : Prop :=
  dict_lookup v (origin r) = Some i /\ dict_lookup v (destination r) = Some j.

Global Instance contributes_dec (v : dict) (i j : nat) (r : row) :
  Decision (contributes v i j r).
Proof. unfold contributes. apply _. Defined.

(** Every station of the records has an index below the size of [v]. *)
Definition covers (v : dict) (data : list row) : Prop :=
  forall r, r ∈ data -> exists i j, contributes v i j r /\
    i < length v /\ j < length v.

(** [if item < cell: cell = item] *)
Definition relax (item cell : num) : num :=
  if num_ltb item cell then item else cell.

(** The cell [(i, j)] after the records of [data], starting from [cell]. *)
Fixpoint relax_all (v : dict) (kind : Z) (i j : nat) (data : list row)
    (cell : num) : num :=
  match data with
  | [] => cell
  | r :: data' =>
      relax_all v kind i j data'
        (if decide (contributes v i j r) then relax (weight kind r) cell
         else cell)
  end.

(** Scenario D: two records for the same pair, of weights 20 and 8. *)
Definition scenario_d : list row :=
  [Row 1 100 200 20 60; Row 2 100 200 8 90].

(** ** The ranking pass of [main] *)

(** [for k in v: result = find_best(len(v), g, v[k]);
    if not result: continue; best.append(result)], with [ks] the keys
    still to visit. *)
Fixpoint collect_best (v : dict) (g : list (list num)) (ks : list Z)
    (best : list (num * list nat))
    : option (res (list (num * list nat))) :=
  match ks with
  | [] => Some (Ok best)
  | k :: ks' =>
      match dict_get v k with
      | Raise e => Some (Raise e)
      | Ok x =>
          match find_best (length v) g x with
          | None => None
          | Some (Raise e) => Some (Raise e)
          | Some (Ok None) => collect_best v g ks' best
          | Some (Ok (Some result)) => collect_best v g ks' (best ++ [result])
          end
      end
  end.

(** [best.sort(key=lambda el: el[0])]: the sort of the library is stable
    and compares the keys with [<]; it is modelled by the stable insertion
    sort. *)
Fixpoint insert_by_cost (el : num * list nat) (best : list (num * list nat))
    : list (num * list nat) :=
  match best with
  | [] => [el]
  | el' :: best' =>
      if num_ltb el'.1 el.1 then el' :: insert_by_cost el best'
      else el :: el' :: best'
  end.

Definition sort_by_cost (best : list (num * list nat))
    : list (num * list nat) :=
  foldr insert_by_cost [] best.

(** One pass of [main] up to the sorted list: the matrix of the dimension
    [kind], the search from every station, the sort. *)
Definition ranking (v : dict) (data : list row) (kind : Z)
    : option (res (list (num * list nat))) :=
  match to_matr v data kind with
  | Raise e => Some (Raise e)
  | Ok g =>
      match collect_best v g v.*1 [] with
      | None => None
      | Some (Raise e) => Some (Raise e)
      | Some (Ok best) => Some (Ok (sort_by_cost best))
      end
  end.

(** [[vkeys[vert_idx] for vert_idx in path]] *)
Fixpoint route_stations (vkeys : list Z) (p : list nat) : res (list Z) :=
  match p with
  | [] => Ok []
  | vert_idx :: p' =>
      s <- getitem vkeys vert_idx ;;
      rest <- route_stations vkeys p' ;;
      Ok (s :: rest)
  end.

(** [for i, el in enumerate(best): print(i + 1, el[0], ...)]: a printed
    line is kept as its rank, its cost and its stations; the layout of the
    text and the rounding of the cost are left out. *)
Fixpoint report (i : nat) (vkeys : list Z) (best : list (num * list nat))
    : res (list (nat * num * list Z)) :=
  match best with
  | [] => Ok []
  | el :: best' =>
      names <- route_stations vkeys el.2 ;;
      rest <- report (S i) vkeys best' ;;
      Ok ((i + 1, el.1, names) :: rest)
  end.

(** One pass of [main] over the prepared data, for the dimension [kind]. *)
Definition main_pass (data : list row) (kind : Z)
    : option (res (list (nat * num * list Z))) :=
  let v := station_index data in
  let vkeys := v.*1 in
  match ranking v data kind with
  | None => None
  | Some (Raise e) => Some (Raise e)
  | Some (Ok best) => Some (report 0 vkeys best)
  end.

(** ** The travel time of [prepare_data] *)

(** What [datetime.strptime(s, '%H:%M:00')] keeps of its text: an hour and
    a minute of the first of January 1900. The reading of the text is not
    modelled. *)
Record clock : Type := Clock {
  hour : Z;
  minute : Z
}.

Definition clock_ok (tm : clock) : Prop :=
  (0 <= hour tm < 24 /\ 0 <= minute tm < 60)%Z.

(** A [timedelta] is kept normalized: [0 <= seconds < 86400]. *)
Record timedelta : Type := Timedelta {
  td_days : Z;
  td_seconds : Z
}.

Definition clock_seconds (tm : clock) : Z :=
  (hour tm * 3600 + minute tm * 60)%Z.

(** [tm2 - tm1] *)
Definition clock_sub (tm2 tm1 : clock) : timedelta :=
  let d := (clock_seconds tm2 - clock_seconds tm1)%Z in
  Timedelta (d / 86400) (d mod 86400).

(** [time = tm2 - tm1; time.seconds] *)
Definition travel_seconds (tm1 tm2 : clock) : Z :=
  td_seconds (clock_sub tm2 tm1).

(** ** Further predicates of the statements *)

(** The step from [a] to [b] is the greedy one when the stations of
    [visited] are taken: [b] has a finite weight, no station outside
    [visited] is cheaper, and those of a lower index are dearer. *)
Definition greedy_step (N : nat) (g : list (list num)) (visited : list nat)
    (a b : nat) : Prop :=
  exists w, edge g a b = Ok w /\ num_ltb w Inf = true /\
    forall j, j < N -> j ∉ visited ->
      exists wj, edge g a j = Ok wj /\ num_ltb wj w = false /\
                 (j < b -> num_ltb w wj = true).

(** Every step of the path [p] is the greedy one. *)
Definition greedy_path (N : nat) (g : list (list num)) (p : list nat) : Prop :=
  forall k a b, p !! k = Some a -> p !! S k = Some b ->
    greedy_step N g (take (S k) p) a b.


(** No weight of the matrix is negative. *)
Definition nonnegative (g : list (list num)) : Prop :=
  forall i j z, edge g i j = Ok (Fin z) -> (0 <= z)%Z.



(** Five routes between three stations. *)
Definition ranking_data : list row :=
  [Row 1 10 20 10 600; Row 2 10 30 50 60; Row 3 20 30 5 120;
   Row 4 30 20 2 60; Row 5 20 10 2 60].

(** ** The path finder over the arithmetic of the weights

    [find_best] uses five things of its numbers: the comparison [<] of two
    cells, [math.inf], the cost [0], the addition [+] of a cell to the
    cost and the truth value of the cost. The module [Arith] holds the
    same code with these five as a parameter; it runs on the exact
    numbers above, which are the durations, and on the binary64 floats,
    which are the prices, whose additions round. *)

Module Arith.

Record ops (T : Type) : Type := Ops {
  lt : T -> T -> bool;
  inf : T;
  zero : T;
  add : T -> T -> T;
  truth : T -> bool
}.

Arguments Ops {T} lt inf zero add truth.
Arguments lt {T} o a b.
Arguments inf {T} o.
Arguments zero {T} o.
Arguments add {T} o a b.
Arguments truth {T} o a.

Section Code.
Context {T : Type} (O : ops T).

(** [g[i][j]] *)
Definition cell (g : list (list T)) (i j : nat) : res T :=
  row <- getitem g i ;; getitem row j.

Fixpoint next_loop (g : list (list T)) (seen : list bool) (node : nat)
    (range : list nat) (min_node : Z * T) (this_cost : T)
    : res ((Z * T) * T) :=
  match range with
  | [] => Ok (min_node, this_cost)
  | i :: range' =>
      s <- getitem seen i ;;
      if negb s then
        w <- cell g node i ;;
        if lt O w min_node.2 then
          next_loop g seen node range' (Z.of_nat i, w) w
        else next_loop g seen node range' min_node this_cost
      else next_loop g seen node range' min_node this_cost
  end.

Definition next (N : nat) (g : list (list T)) (seen : list bool)
    (node : nat) (curr_cost : T) : res (option (T * nat)) :=
  st <- next_loop g seen node (seq 0 N) ((-1)%Z, inf O) (zero O) ;;
  let min_node := st.1 in
  let this_cost := st.2 in
  if (min_node.1 =? -1)%Z then Ok None
  else Ok (Some (add O curr_cost this_cost, Z.to_nat min_node.1)).

Record frame : Type := Frame {
  seen : list bool;
  path : list nat;
  node : nat;
  cost : T
}.

Inductive outcome : Type :=
  | Return (result : option T) (seen' : list bool) (path' : list nat)
  | Recurse (fr : frame).

Definition tsp_body (N : nat) (g : list (list T)) (fr : frame)
    : res outcome :=
  seen' <- setitem (seen fr) (node fr) true ;;
  let path' := path fr ++ [node fr] in
  next_nd <- next N g seen' (node fr) (cost fr) ;;
  if length path' =? N then Ok (Return (Some (cost fr)) seen' path')
  else
    match next_nd with
    | None => Ok (Return None seen' path')
    | Some (cost', node') => Ok (Recurse (Frame seen' path' node' cost'))
    end.

Fixpoint tsp (fuel : nat) (N : nat) (g : list (list T)) (fr : frame)
    : option (res (option T * list nat)) :=
  match fuel with
  | 0 => None
  | S fuel' =>
      match tsp_body N g fr with
      | Raise e => Some (Raise e)
      | Ok (Return result _ path') => Some (Ok (result, path'))
      | Ok (Recurse fr') => tsp fuel' N g fr'
      end
  end.

Definition initial (N : nat) (node : nat) : frame :=
  Frame (replicate N false) [] node (zero O).

Definition find_best_fuel (fuel : nat) (N : nat) (g : list (list T))
    (node : nat) : option (res (option (T * list nat))) :=
  match tsp fuel N g (initial N node) with
  | None => None
  | Some (Raise e) => Some (Raise e)
  | Some (Ok (None, _)) => Some (Ok None)
  | Some (Ok (Some result, path')) =>
      if truth O result then Some (Ok (Some (result, path')))
      else Some (Ok None)
  end.

Definition find_best (N : nat) (g : list (list T)) (node : nat)
    : option (res (option (T * list nat))) :=
  find_best_fuel (S N) N g node.

(** The cells [g[p[k]][p[k+1]]] added to [c] one after the other, in the
    order of the path. *)
Fixpoint accumulate (g : list (list T)) (c : T) (p : list nat) : res T :=
  match p with
  | a :: ((b :: _) as p') =>
      w <- cell g a b ;;
      accumulate g (add O c w) p'
  | _ => Ok c
  end.

(** The invariant of the calls of [tsp]. *)
Record walk_inv (N : nat) (g : list (list T)) (start : nat) (fr : frame)
    : Prop := WalkInv {
  inv_length : length (seen fr) = N;
  inv_consistent : consistent (seen fr) (path fr);
  inv_fresh : seen fr !! node fr = Some false;
  inv_start : head (path fr ++ [node fr]) = Some start;
  inv_cost : accumulate g (zero O) (path fr ++ [node fr]) = Ok (cost fr)
}.

End Code.

End Arith.

(** The exact numbers: Python's [int], with [math.inf]. *)
Definition int_ops : Arith.ops num :=
  Arith.Ops num_ltb Inf (Fin 0) num_add truthy.

(** The binary64 numbers: Python's [float]. The cost starts as the [int]
    0, which an addition takes as the float 0.0; a float is false when it
    equals 0.0. *)
Definition float_ops : Arith.ops float :=
  Arith.Ops PrimFloat.ltb infinity 0%float PrimFloat.add
    (fun c => negb (PrimFloat.eqb c 0%float)).

(** The state of [Arith.tsp] on the exact numbers as a state of [tsp]. *)
Definition int_frame (fr : Arith.frame (T:=num)) : frame :=
  Frame (Arith.seen fr) (Arith.path fr) (Arith.node fr) (Arith.cost fr).

Definition int_outcome (o : Arith.outcome (T:=num)) : outcome :=
  match o with
  | Arith.Return result seen' path' => Return result seen' path'
  | Arith.Recurse fr => Recurse (int_frame fr)
  end.

(** The exact value of a finite float, in units of [2 ^ -1074]. *)
Definition exact (f : float) : option Z :=
  match Prim2SF f with
  | S754_zero _ => Some 0%Z
  | S754_finite s m e =>
      Some ((if s then -1 else 1) * Z.pos m * 2 ^ (e + 1074))%Z
  | _ => None
  end.

(** The exact sum of [g[p[k]][p[k+1]]] over the consecutive pairs of [p],
    in the same units. *)
Fixpoint exact_path_sum (g : list (list float)) (p : list nat) : option Z :=
  match p with
  | a :: ((b :: _) as p') =>
      match Arith.cell g a b with
      | Ok w =>
          match exact w, exact_path_sum g p' with
          | Some x, Some y => Some (x + y)%Z
          | _, _ => None
          end
      | Raise _ => None
      end
  | _ => Some 0%Z
  end.

(** Three stations with the prices [0 -> 1 = 2 ** 53] and [1 -> 2 = 1]. *)
Definition prices_rounding : list (list float) :=
  [ [infinity; 0x1p+53%float; infinity];
    [infinity; infinity; 1%float];
    [infinity; infinity; infinity] ].

(** * Properties *)

(** ** The scenarios of the specification *)

Example scenario_a_run : find_best 3 scenario_a 0 = Some (Ok (Some (Fin 15, [0; 1; 2]))).
Proof. reflexivity. Qed.

Example scenario_b_run : find_best 3 scenario_b 0 = Some (Ok None).
Proof. reflexivity. Qed.

Example single_station_run : find_best 1 [[Inf]] 0 = Some (Ok None).
Proof. reflexivity. Qed.

Example out_of_range_run : find_best 3 scenario_a 3 = Some (Raise IndexError).
Proof. reflexivity. Qed.

Example tie_run :
  find_best 3 [[Inf; Fin 4; Fin 4]; [Inf; Inf; Fin 1]; [Inf; Fin 1; Inf]] 0
  = Some (Ok (Some (Fin 5, [0; 1; 2]))).
Proof. reflexivity. Qed.

Example first_seen_run : first_seen [30; 10; 10; 20; 30; 20]%Z = [30; 10; 20]%Z.
Proof. reflexivity. Qed.

(** ** The error monad and the numbers *)

Lemma bind_Ok {A B : Type} (m : res A) (k : A -> res B) (b : B) :
  bind m k = Ok b -> exists a, m = Ok a /\ k a = Ok b.
Proof. destruct m as [a|e]; simpl; [eauto | discriminate]. Qed.

Ltac bind_inv H :=
  let a := fresh "a" in
  let Ha := fresh "Ha" in
  apply bind_Ok in H; destruct H as (a & Ha & H).

Ltac num_cases :=
  repeat match goal with
         | x : num |- _ => destruct x
         end;
  simpl in *;
  rewrite ?Z.ltb_lt, ?Z.ltb_ge in *;
  try (congruence || lia).

Lemma num_ltb_irrefl (a : num) : num_ltb a a = false.
Proof. destruct a; simpl; [apply Z.ltb_irrefl | reflexivity]. Qed.

Lemma num_ltb_below (a b c : num) :
  num_ltb a b = true -> num_ltb c b = false -> num_ltb c a = false.
Proof. num_cases. Qed.

Lemma num_ltb_strict (a b c : num) :
  num_ltb a b = true -> num_ltb c b = false -> num_ltb a c = true.
Proof. num_cases. Qed.

Lemma num_ltb_asym (a b : num) : num_ltb a b = true -> num_ltb b a = false.
Proof. num_cases. Qed.

Lemma num_ltb_chain (a b c : num) :
  num_ltb a b = false -> num_ltb b c = false -> num_ltb a c = false.
Proof. num_cases. Qed.

Lemma num_not_lt_Inf (a : num) : num_ltb a Inf = false -> a = Inf.
Proof. num_cases. Qed.

Lemma num_lt_Inf (a : num) : num_ltb a Inf = true -> exists z, a = Fin z.
Proof. destruct a; simpl; [eauto | discriminate]. Qed.

Lemma getitem_Ok {A : Type} (l : list A) (i : nat) (x : A) :
  getitem l i = Ok x <-> l !! i = Some x.
Proof. unfold getitem. destruct (l !! i); split; congruence. Qed.

Lemma setitem_Ok {A : Type} (l : list A) (i : nat) (x : A) (l' : list A) :
  setitem l i x = Ok l' <-> i < length l /\ l' = <[i:=x]> l.
Proof.
  unfold setitem. case_decide; split.
  - intros [= <-]. auto.
  - intros [_ ->]. reflexivity.
  - discriminate.
  - intros [? _]. contradiction.
Qed.

(** ** The scan of [next] *)

Section Scan.
Variables (g : list (list num)) (seen : list bool) (node : nat).

Lemma next_loop_scanned (n k : nat) (mn : Z * num) (tc : num)
    (mn' : Z * num) (tc' : num) :
  scanned g seen node k mn tc ->
  next_loop g seen node (seq k n) mn tc = Ok (mn', tc') ->
  scanned g seen node (k + n) mn' tc'.
Proof.
  revert k mn tc. induction n as [|n IH]; intros k mn tc Hs H; simpl in H.
  - injection H as <- <-. by rewrite Nat.add_0_r.
  - replace (k + S n) with (S k + n) by lia.
    bind_inv H. apply getitem_Ok in Ha.
    destruct a; simpl in H.
    { apply (IH _ _ _) in H; [done|].
      destruct Hs as [[-> Hall]|(j & Hj & -> & Hsj & Hej & Hfin & Hall)].
      - left. split; [done|]. intros i Hi Hsi.
        destruct (decide (i = k)) as [->|]; [congruence|]. apply Hall; [lia|done].
      - right. exists j. repeat split; try done; [lia|].
        intros i Hi Hsi.
        destruct (decide (i = k)) as [->|]; [congruence|]. apply Hall; [lia|done]. }
    bind_inv H. rename a into w, Ha0 into Hw.
    destruct (num_ltb w mn.2) eqn:Hlt.
    + apply (IH _ _ _) in H; [done|].
      right. exists k. repeat split; try done; [lia| |].
      { destruct Hs as [[-> _]|(j & _ & -> & _ & _ & Hfin & _)]; simpl in Hlt.
        - done.
        - clear -Hlt Hfin. num_cases. }
      intros i Hi Hsi.
      destruct (decide (i = k)) as [->|Hne].
      { exists w. split; [done|]. split; [apply num_ltb_irrefl | lia]. }
      destruct Hs as [[-> Hall]|(j & Hj & -> & Hsj & Hej & Hfin & Hall)];
        simpl in Hlt.
      * exists Inf. split; [apply Hall; [lia|done]|]. split; [done|].
        intros _. done.
      * destruct (Hall i) as (wi & Hwi & Hge & _); [lia|done|].
        exists wi. split; [done|]. split.
        -- eapply num_ltb_below; eauto.
        -- intros _. eapply num_ltb_strict; eauto.
    + apply (IH _ _ _) in H; [done|].
      destruct Hs as [[-> Hall]|(j & Hj & -> & Hsj & Hej & Hfin & Hall)];
        simpl in Hlt.
      * left. split; [done|]. intros i Hi Hsi.
        destruct (decide (i = k)) as [->|].
        -- apply num_not_lt_Inf in Hlt. by subst.
        -- apply Hall; [lia|done].
      * right. exists j. repeat split; try done; [lia|].
        intros i Hi Hsi.
        destruct (decide (i = k)) as [->|].
        -- exists w. split; [done|]. split; [done|lia].
        -- apply Hall; [lia|done].
Qed.

Lemma next_loop_total (n k : nat) (mn : Z * num) (tc : num) :
  (forall i, k <= i < k + n -> is_Some (seen !! i)) ->
  (forall i, k <= i < k + n -> seen !! i = Some false ->
     exists w, edge g node i = Ok w) ->
  exists st, next_loop g seen node (seq k n) mn tc = Ok st.
Proof.
  revert k mn tc. induction n as [|n IH]; intros k mn tc Hseen Hedge; simpl.
  - eauto.
  - destruct (Hseen k) as [s Hs]; [lia|].
    unfold getitem at 1. rewrite Hs. simpl.
    assert (forall mn tc, exists st,
              next_loop g seen node (seq (S k) n) mn tc = Ok st) as Hrest.
    { intros mn0 tc0. apply IH.
      - intros i Hi. apply Hseen. lia.
      - intros i Hi. apply Hedge. lia. }
    destruct s; simpl; [apply Hrest|].
    destruct (Hedge k) as [w Hw]; [lia|done|].
    rewrite Hw. simpl. destruct (num_ltb w mn.2); apply Hrest.
Qed.
End Scan.

Lemma next_selected (N : nat) (g : list (list num)) (seen : list bool)
    (node : nat) (curr_cost : num) (r : option (num * nat)) :
  next N g seen node curr_cost = Ok r -> selected N g seen node curr_cost r.
Proof.
  unfold next. intros H. bind_inv H. destruct a as [mn tc]. simpl in H.
  apply (next_loop_scanned g seen node N 0) in Ha.
  2:{ left. split; [done|]. intros i Hi. lia. }
  simpl in Ha.
  destruct Ha as [[-> Hall]|(j & Hj & -> & Hsj & Hej & Hfin & Hall)]; simpl in H.
  - injection H as <-. exact Hall.
  - destruct (Z.of_nat j =? -1)%Z eqn:E; [apply Z.eqb_eq in E; lia|].
    injection H as <-. rewrite Nat2Z.id. simpl. eauto 10.
Qed.

Lemma next_total (N : nat) (g : list (list num)) (seen : list bool)
    (node : nat) (curr_cost : num) :
  N <= length seen ->
  (forall i, i < N -> seen !! i = Some false -> exists w, edge g node i = Ok w) ->
  exists r, next N g seen node curr_cost = Ok r.
Proof.
  intros Hlen Hedge. unfold next.
  destruct (next_loop_total g seen node N 0 ((-1)%Z, Inf) (Fin 0)) as [st Hst].
  - intros i Hi. apply lookup_lt_is_Some. lia.
  - intros i Hi. apply Hedge. lia.
  - rewrite Hst. simpl. destruct (_ =? _)%Z; eauto.
Qed.

(** [next] answers [None] exactly when it is stuck. *)
Lemma next_stuck (N : nat) (g : list (list num)) (seen : list bool)
    (node : nat) (curr_cost : num) :
  N <= length seen ->
  (forall i, i < N -> seen !! i = Some false -> edge g node i = Ok Inf) ->
  next N g seen node curr_cost = Ok None.
Proof.
  intros Hlen Hall.
  destruct (next_total N g seen node curr_cost) as [r Hr]; [done|eauto|].
  rewrite Hr. f_equal. apply next_selected in Hr.
  destruct r as [[c j]|]; [|done].
  destruct Hr as (Hj & Hsj & w & Hw & Hfin & _).
  rewrite (Hall j Hj Hsj) in Hw. injection Hw as <-. done.
Qed.

(** ** The matrix and the walk *)

Lemma matrix_ok_edge (N : nat) (g : list (list num)) (i j : nat) :
  matrix_ok N g -> i < N -> j < N -> exists w, edge g i j = Ok w.
Proof.
  intros [Hlen Hrows] Hi Hj. unfold edge.
  destruct (lookup_lt_is_Some_2 g i) as [line Hline]; [lia|].
  unfold getitem at 1. rewrite Hline. simpl.
  rewrite Forall_forall in Hrows.
  assert (length line = N) as Hl.
  { apply Hrows. eapply list_elem_of_lookup_2. done. }
  destruct (lookup_lt_is_Some_2 line j) as [w Hw]; [lia|].
  exists w. by apply getitem_Ok.
Qed.

Lemma num_add_0_r (a : num) : num_add a (Fin 0) = a.
Proof. destruct a; simpl; [f_equal; lia | reflexivity]. Qed.

Lemma num_add_comm (a b : num) : num_add a b = num_add b a.
Proof. destruct a, b; simpl; try reflexivity. f_equal. lia. Qed.

Lemma num_add_assoc (a b c : num) :
  num_add a (num_add b c) = num_add (num_add a b) c.
Proof. destruct a, b, c; simpl; try reflexivity. f_equal. lia. Qed.

Lemma path_cost_snoc (g : list (list num)) (p : list nat) (a b : nat)
    (c w : num) :
  path_cost g (p ++ [a]) = Ok c ->
  edge g a b = Ok w ->
  path_cost g ((p ++ [a]) ++ [b]) = Ok (num_add c w).
Proof.
  revert c. induction p as [|x p IH]; intros c Hc Hw.
  - simpl in *. injection Hc as <-. rewrite Hw.
    destruct w; simpl; [do 2 f_equal; lia | reflexivity].
  - change ((x :: p) ++ [a]) with (x :: (p ++ [a])) in *.
    change ((x :: p ++ [a]) ++ [b]) with (x :: ((p ++ [a]) ++ [b])).
    destruct (p ++ [a]) as [|y q] eqn:E; [by destruct p|].
    change ((y :: q) ++ [b]) with (y :: (q ++ [b])) in *.
    cbn [path_cost] in Hc. bind_inv Hc. bind_inv Hc. injection Hc as <-.
    cbn [path_cost]. rewrite Ha. simpl.
    change (match q ++ [b] with
            | [] => Ok (Fin 0)
            | b0 :: _ => w0 <- edge g y b0;; c0 <- path_cost g (q ++ [b]);;
                         Ok (num_add w0 c0)
            end) with (path_cost g (y :: (q ++ [b]))).
    rewrite (IH _ Ha0 Hw). simpl. by rewrite num_add_assoc.
Qed.

Lemma consistent_NoDup (seen : list bool) (path : list nat) :
  consistent seen path -> NoDup path.
Proof.
  intros H. apply NoDup_ListNoDup, (NoDup_count_occ Nat.eq_dec). intros i.
  rewrite (H i). case_decide; lia.
Qed.

Lemma consistent_elem (seen : list bool) (path : list nat) (i : nat) :
  consistent seen path -> (i ∈ path <-> seen !! i = Some true).
Proof.
  intros H. rewrite list_elem_of_In, (count_occ_In Nat.eq_dec), (H i).
  case_decide; split; intros; try done; lia.
Qed.

Lemma consistent_submseteq (seen : list bool) (path : list nat) :
  consistent seen path -> path ⊆+ seq 0 (length seen).
Proof.
  intros H. apply NoDup_submseteq; [by eapply consistent_NoDup|].
  intros i Hi. apply (consistent_elem _ _ _ H) in Hi.
  apply lookup_lt_Some in Hi. apply elem_of_seq. lia.
Qed.

Lemma consistent_mark (seen : list bool) (path : list nat) (node : nat) :
  consistent seen path ->
  seen !! node = Some false ->
  consistent (<[node:=true]> seen) (path ++ [node]).
Proof.
  intros H Hn i. rewrite count_occ_app, (H i). simpl.
  pose proof (lookup_lt_Some _ _ _ Hn) as Hlt.
  destruct (decide (i = node)) as [->|Hne].
  - rewrite list_lookup_insert_eq by done. rewrite Hn.
    destruct (Nat.eq_dec node node); [|done].
    repeat case_decide; first [congruence | lia].
  - rewrite list_lookup_insert_ne by done.
    destruct (Nat.eq_dec node i); [congruence|].
    repeat case_decide; first [congruence | lia].
Qed.

Lemma consistent_initial (N : nat) : consistent (replicate N false) [].
Proof.
  intros i. simpl. case_decide as H; [|done].
  apply lookup_replicate in H. by destruct H.
Qed.

(** A complete path is a permutation of the station indices. *)
Lemma consistent_full (seen : list bool) (path : list nat) :
  consistent seen path ->
  length path = length seen ->
  path ≡ₚ seq 0 (length seen).
Proof.
  intros H Hlen. apply submseteq_length_Permutation.
  - by apply consistent_submseteq.
  - rewrite length_seq. lia.
Qed.

(** ** One call of [tsp] *)

Lemma tsp_body_Ok (N : nat) (g : list (list num)) (fr : frame) (o : outcome) :
  tsp_body N g fr = Ok o ->
  let seen' := <[node fr:=true]> (seen fr) in
  let path' := path fr ++ [node fr] in
  node fr < length (seen fr) /\
  exists nd, next N g seen' (node fr) (cost fr) = Ok nd /\
    o = if length path' =? N then Return (Some (cost fr)) seen' path'
        else match nd with
             | None => Return None seen' path'
             | Some (cost', node') => Recurse (Frame seen' path' node' cost')
             end.
Proof.
  unfold tsp_body. intros H. bind_inv H. apply setitem_Ok in Ha as [Hlt ->].
  bind_inv H. rename a into nd. simpl. split; [done|]. exists nd. split; [done|].
  destruct (_ =? _); [congruence|]. destruct nd as [[c j]|]; congruence.
Qed.

Lemma walk_inv_initial (N : nat) (g : list (list num)) (start : nat) :
  start < N -> walk_inv N g start (initial N start).
Proof.
  intros H. split; simpl.
  - apply length_replicate.
  - apply consistent_initial.
  - by apply lookup_replicate.
  - done.
  - done.
  - eauto.
Qed.

Lemma tsp_body_recurse (N : nat) (g : list (list num)) (start : nat)
    (fr fr' : frame) :
  walk_inv N g start fr ->
  tsp_body N g fr = Ok (Recurse fr') ->
  walk_inv N g start fr' /\
  seen fr' = <[node fr:=true]> (seen fr) /\
  path fr' = path fr ++ [node fr] /\
  length (path fr') <> N /\
  selected N g (seen fr') (node fr) (cost fr) (Some (cost fr', node fr')).
Proof.
  intros [Hlen Hcons Hfresh Hstart Hcost [z Hz]] H.
  apply tsp_body_Ok in H as (Hlt & nd & Hnd & Ho). simpl in Ho.
  destruct (_ =? _) eqn:E; [done|]. apply Nat.eqb_neq in E.
  destruct nd as [[c j]|]; [|done]. injection Ho as ->. simpl.
  pose proof (next_selected _ _ _ _ _ _ Hnd) as Hsel.
  split; [split; simpl | repeat (split; [done|]); exact Hsel].
  - by rewrite length_insert.
  - by apply consistent_mark.
  - by destruct Hsel as (_ & ? & _).
  - rewrite <- Hstart. by destruct (path fr).
  - destruct Hsel as (_ & _ & w & Hw & _ & -> & _). by apply path_cost_snoc.
  - destruct Hsel as (_ & _ & w & _ & Hfin & -> & _).
    apply num_lt_Inf in Hfin as [zw ->]. rewrite Hz. simpl. eauto.
Qed.

Lemma tsp_body_return (N : nat) (g : list (list num)) (start : nat)
    (fr : frame) (r : option num) (s : list bool) (p : list nat) :
  walk_inv N g start fr ->
  tsp_body N g fr = Ok (Return r s p) ->
  s = <[node fr:=true]> (seen fr) /\ p = path fr ++ [node fr] /\
  consistent s p /\
  ((length p = N /\ r = Some (cost fr)) \/
   (length p <> N /\ r = None /\ selected N g s (node fr) (cost fr) None)).
Proof.
  intros [Hlen Hcons Hfresh Hstart Hcost [z Hz]] H.
  apply tsp_body_Ok in H as (Hlt & nd & Hnd & Ho). simpl in Ho.
  pose proof (consistent_mark _ _ _ Hcons Hfresh) as Hc'.
  pose proof (next_selected _ _ _ _ _ _ Hnd) as Hsel.
  destruct (_ =? _) eqn:E.
  - apply Nat.eqb_eq in E. injection Ho as -> -> ->. auto 10.
  - apply Nat.eqb_neq in E. destruct nd as [[c j]|]; [done|].
    injection Ho as -> -> ->. auto 10.
Qed.

Lemma tsp_body_total (N : nat) (g : list (list num)) (start : nat) (fr : frame) :
  matrix_ok N g ->
  walk_inv N g start fr ->
  exists o, tsp_body N g fr = Ok o.
Proof.
  intros Hg [Hlen Hcons Hfresh Hstart Hcost Hz].
  pose proof (lookup_lt_Some _ _ _ Hfresh) as Hlt.
  unfold tsp_body, setitem. rewrite decide_True by done. simpl.
  destruct (next_total N g (<[node fr:=true]> (seen fr)) (node fr) (cost fr))
    as [nd ->].
  - rewrite length_insert. lia.
  - intros i Hi _. eapply matrix_ok_edge; eauto. lia.
  - simpl. destruct (_ =? _); [eauto|]. destruct nd as [[c j]|]; eauto.
Qed.

(** A call never starts with a complete path. *)
Lemma walk_inv_room (N : nat) (g : list (list num)) (start : nat) (fr : frame) :
  walk_inv N g start fr -> length (path fr) < N.
Proof.
  intros [Hlen Hcons Hfresh _ _ _].
  pose proof (consistent_mark _ _ _ Hcons Hfresh) as Hc.
  apply consistent_submseteq, submseteq_length in Hc.
  rewrite length_app, length_seq, length_insert in Hc. simpl in Hc. lia.
Qed.

(** ** Runs of [tsp] *)

Lemma calls_inv (N : nat) (g : list (list num)) (start k : nat)
    (fr fr' : frame) :
  walk_inv N g start fr ->
  calls N g k fr fr' ->
  walk_inv N g start fr' /\ length (path fr') = length (path fr) + k.
Proof.
  intros Hinv Hcalls. induction Hcalls as [fr|k fr fr' fr'' _ IH Hstep].
  - split; [done|lia].
  - destruct (IH Hinv) as [Hinv' Hlen].
    destruct (tsp_body_recurse _ _ _ _ _ Hinv' Hstep) as (? & _ & Hp & _).
    split; [done|]. rewrite Hp, length_app, Hlen. simpl. lia.
Qed.

Lemma calls_cons (N : nat) (g : list (list num)) (k : nat)
    (fr fr1 fr' : frame) :
  tsp_body N g fr = Ok (Recurse fr1) ->
  calls N g k fr1 fr' ->
  calls N g (S k) fr fr'.
Proof.
  intros Hstep Hcalls. induction Hcalls as [fr1|k fr1 fr' fr'' _ IH Hlast].
  - eapply calls_step; [apply calls_here | done].
  - eapply calls_step; [by apply IH | done].
Qed.

Lemma calls_began (N : nat) (g : list (list num)) (k : nat)
    (fr fr' : frame) (o : outcome) :
  calls N g k fr fr' ->
  tsp_body N g fr' = Ok o ->
  exists o', tsp_body N g fr = Ok o'.
Proof.
  intros Hcalls. revert o.
  induction Hcalls as [fr|k fr fr' fr'' _ IH Hstep]; intros o Ho; eauto.
Qed.

Lemma initial_in_range (N : nat) (g : list (list num)) (start : nat)
    (o : outcome) :
  tsp_body N g (initial N start) = Ok o -> start < N.
Proof.
  intros H. apply tsp_body_Ok in H as [H _]. simpl in H.
  by rewrite length_replicate in H.
Qed.

Lemma initial_out_of_range (N : nat) (g : list (list num)) (start : nat) :
  ~ start < N -> tsp_body N g (initial N start) = Raise IndexError.
Proof.
  intros H. unfold tsp_body, setitem. simpl.
  rewrite length_replicate, decide_False by done. reflexivity.
Qed.

Lemma tsp_fuel_mono (N : nat) (g : list (list num)) (fuel fuel' : nat)
    (fr : frame) (r : res (option num * list nat)) :
  tsp fuel N g fr = Some r -> fuel <= fuel' -> tsp fuel' N g fr = Some r.
Proof.
  revert fuel' fr. induction fuel as [|fuel IH]; intros fuel' fr H Hle.
  - discriminate.
  - destruct fuel' as [|fuel']; [lia|]. simpl in *.
    destruct (tsp_body N g fr) as [[result s p|fr1]|e]; try done.
    apply IH; [done|lia].
Qed.

Lemma tsp_calls (N : nat) (g : list (list num)) (k fuel : nat)
    (fr fr' : frame) (r : res (option num * list nat)) :
  calls N g k fr fr' ->
  tsp fuel N g fr' = Some r ->
  tsp (k + fuel) N g fr = Some r.
Proof.
  intros Hcalls. revert fuel.
  induction Hcalls as [fr|k fr fr' fr'' _ IH Hstep]; intros fuel H; [done|].
  replace (S k + fuel) with (k + S fuel) by lia.
  apply IH. simpl. by rewrite Hstep.
Qed.

(** A run that returns normally ends with a call whose body returns. *)
Lemma tsp_Ok_calls (N : nat) (g : list (list num)) (fuel : nat) (fr : frame)
    (result : option num) (p : list nat) :
  tsp fuel N g fr = Some (Ok (result, p)) ->
  exists k fr' s, k < fuel /\ calls N g k fr fr' /\
    tsp_body N g fr' = Ok (Return result s p).
Proof.
  revert fr. induction fuel as [|fuel IH]; intros fr H; [done|].
  simpl in H. destruct (tsp_body N g fr) as [[r0 s0 p0|fr1]|e] eqn:E; try done.
  - injection H as -> ->. exists 0, fr, s0.
    split; [lia|]. split; [apply calls_here | done].
  - destruct (IH _ H) as (k & fr' & s & Hk & Hcalls & Hbody).
    exists (S k), fr', s. split; [lia|]. split; [|done].
    by eapply calls_cons.
Qed.

(** Fuel for the stations that are still unvisited is enough. *)
Lemma tsp_fuel_enough (N : nat) (g : list (list num)) (start fuel : nat)
    (fr : frame) :
  walk_inv N g start fr ->
  N <= fuel + length (path fr) ->
  exists r, tsp fuel N g fr = Some r.
Proof.
  revert fr. induction fuel as [|fuel IH]; intros fr Hinv Hle.
  - apply walk_inv_room in Hinv. lia.
  - simpl. destruct (tsp_body N g fr) as [[r0 s0 p0|fr1]|e] eqn:E; eauto.
    destruct (tsp_body_recurse _ _ _ _ _ Hinv E) as (Hinv1 & _ & Hp & _).
    apply IH; [done|]. rewrite Hp, length_app. simpl. lia.
Qed.

(** On a well-formed matrix no subscript is out of range. *)
Lemma tsp_no_exception (N : nat) (g : list (list num)) (start fuel : nat)
    (fr : frame) (e : exn) :
  matrix_ok N g ->
  walk_inv N g start fr ->
  tsp fuel N g fr <> Some (Raise e).
Proof.
  intros Hg. revert fr. induction fuel as [|fuel IH]; intros fr Hinv; [done|].
  simpl. destruct (tsp_body_total _ _ _ _ Hg Hinv) as [o Ho]. rewrite Ho.
  destruct o as [r0 s0 p0|fr1]; [done|].
  apply IH. by destruct (tsp_body_recurse _ _ _ _ _ Hinv Ho).
Qed.

Lemma tsp_initial_enough (N : nat) (g : list (list num)) (start : nat) :
  exists r, tsp (S N) N g (initial N start) = Some r.
Proof.
  destruct (decide (start < N)) as [H|H].
  - eapply tsp_fuel_enough; [by apply walk_inv_initial|]. simpl. lia.
  - simpl. rewrite initial_out_of_range by done. eauto.
Qed.

(** The run of [find_best] from its last call. *)
Lemma tsp_initial_return (N : nat) (g : list (list num)) (start k : nat)
    (fr : frame) (result : option num) (s : list bool) (p : list nat) :
  calls N g k (initial N start) fr ->
  tsp_body N g fr = Ok (Return result s p) ->
  tsp (S N) N g (initial N start) = Some (Ok (result, p)).
Proof.
  intros Hcalls Hbody.
  destruct (calls_began _ _ _ _ _ _ Hcalls Hbody) as [o Ho].
  apply initial_in_range in Ho.
  destruct (calls_inv N g start _ _ _ (walk_inv_initial N g start Ho) Hcalls)
    as [Hinv Hlen].
  apply walk_inv_room in Hinv. simpl in Hlen.
  apply (tsp_fuel_mono N g (k + 1)); [|lia].
  eapply tsp_calls; [done|]. simpl. by rewrite Hbody.
Qed.

(** [find_best] in terms of the run of [tsp]. *)
Lemma find_best_Some (N : nat) (g : list (list num)) (start : nat)
    (c : num) (p : list nat) :
  find_best N g start = Some (Ok (Some (c, p))) <->
  tsp (S N) N g (initial N start) = Some (Ok (Some c, p)) /\ truthy c = true.
Proof.
  unfold find_best, find_best_fuel.
  destruct (tsp (S N) N g (initial N start)) as [[[[c0|] p0]|e]|];
    try (split; [done | by intros [? _]]).
  destruct (truthy c0) eqn:E; split.
  - intros [= -> ->]. done.
  - intros [[= -> ->] _]. done.
  - done.
  - intros [[= -> ->] ?]. congruence.
Qed.

(** A returned walk: the last call and what its state satisfies. *)
Lemma tsp_initial_result (N : nat) (g : list (list num)) (start : nat)
    (result : option num) (p : list nat) :
  tsp (S N) N g (initial N start) = Some (Ok (result, p)) ->
  start < N /\
  exists k fr s, calls N g k (initial N start) fr /\
    walk_inv N g start fr /\
    tsp_body N g fr = Ok (Return result s p).
Proof.
  intros H. apply tsp_Ok_calls in H as (k & fr & s & _ & Hcalls & Hbody).
  destruct (calls_began _ _ _ _ _ _ Hcalls Hbody) as [o Ho].
  apply initial_in_range in Ho. split; [done|].
  exists k, fr, s. split; [done|]. split; [|done].
  by destruct (calls_inv N g start _ _ _ (walk_inv_initial N g start Ho) Hcalls).
Qed.

(** ** The claims about [find_best] *)

(** C1. A single-station graph: the walk completes with the path [[0]] and
    cost 0, and [find_best] answers [None] whatever the matrix holds,
    where its docstring promises the cost and the path. *)
Theorem find_best_single_station (g : list (list num)) :
  tsp 2 1 g (initial 1 0) = Some (Ok (Some (Fin 0), [0])) /\
  find_best 1 g 0 = Some (Ok None).
Proof. split; reflexivity. Qed.

(** A completed walk is returned when its cost is not zero. *)
Lemma find_best_complete_nonzero (N : nat) (g : list (list num))
    (start k : nat) (fr : frame) (c : num) (s : list bool) (p : list nat) :
  calls N g k (initial N start) fr ->
  tsp_body N g fr = Ok (Return (Some c) s p) ->
  truthy c = true ->
  find_best N g start = Some (Ok (Some (c, p))).
Proof.
  intros Hcalls Hbody Hc. apply find_best_Some. split; [|done].
  by eapply tsp_initial_return.
Qed.

Lemma stuck_return (N : nat) (g : list (list num)) (start : nat) (fr : frame) :
  walk_inv N g start fr ->
  stuck N g fr ->
  tsp_body N g fr
  = Ok (Return None (<[node fr:=true]> (seen fr)) (path fr ++ [node fr])).
Proof.
  intros [Hlen Hcons Hfresh _ _ _] [Hshort Hall].
  pose proof (lookup_lt_Some _ _ _ Hfresh) as Hlt.
  unfold tsp_body, setitem. rewrite decide_True by done. simpl.
  rewrite next_stuck.
  - simpl. rewrite length_app. simpl.
    destruct (_ =? _) eqn:E; [apply Nat.eqb_eq in E; lia | done].
  - rewrite length_insert. lia.
  - intros i Hi Hsi. destruct (decide (i = node fr)) as [->|Hne].
    + rewrite list_lookup_insert_eq in Hsi by done. done.
    + rewrite list_lookup_insert_ne in Hsi by done. by apply Hall.
Qed.

(** C4. A walk that gets stuck before the path reaches length [N] makes
    [find_best] answer [None]; so does every three-station matrix whose
    cheapest edge from 0 is [0 -> 1 = 10] and that has no edge [1 -> 2]. *)
Theorem find_best_stuck :
  (forall (N : nat) (g : list (list num)) (start k : nat) (fr : frame),
     start < N ->
     calls N g k (initial N start) fr ->
     stuck N g fr ->
     find_best N g start = Some (Ok None))
  /\
  (forall (g : list (list num)) (w : num),
     edge g 0 1 = Ok (Fin 10) ->
     edge g 0 2 = Ok w ->
     num_ltb w (Fin 10) = false ->
     edge g 1 2 = Ok Inf ->
     find_best 3 g 0 = Some (Ok None)).
Proof.
  assert (forall N g start k fr, start < N ->
            calls N g k (initial N start) fr -> stuck N g fr ->
            find_best N g start = Some (Ok None)) as Hgen.
  { intros N g start k fr Hstart Hcalls Hstuck.
    destruct (calls_inv N g start _ _ _ (walk_inv_initial N g start Hstart)
                Hcalls) as [Hinv _].
    pose proof (stuck_return _ _ _ _ Hinv Hstuck) as Hbody.
    unfold find_best, find_best_fuel.
    by rewrite (tsp_initial_return _ _ _ _ _ _ _ _ Hcalls Hbody). }
  split; [exact Hgen|].
  intros g w H01 H02 Hw H12.
  apply (Hgen 3 g 0 1 (Frame [true; false; false] [0] 1 (Fin 10))); [lia| |].
  - eapply calls_step; [apply calls_here|].
    unfold tsp_body, next. simpl. rewrite H01. simpl. rewrite H02. simpl.
    rewrite Hw. reflexivity.
  - split; [simpl; lia|]. simpl. intros i Hi Hne Hsi.
    destruct i as [|[|[|i]]]; done || lia.
Qed.

Lemma find_best_stuck_witness :
  stuck 3 scenario_b (Frame [true; false; false] [0] 1 (Fin 10)) /\
  find_best 3 scenario_b 0 = Some (Ok None) /\
  find_best 3 [[Inf; Fin 10; Inf]; [Fin 1; Inf; Inf]; [Inf; Inf; Inf]] 0
    = Some (Ok None).
Proof.
  assert (stuck 3 scenario_b (Frame [true; false; false] [0] 1 (Fin 10)))
    as Hstuck.
  { split; [simpl; lia|]. simpl. intros i Hi Hne Hsi.
    destruct i as [|[|[|i]]]; done || lia. }
  split; [exact Hstuck|]. split.
  - apply (proj1 find_best_stuck 3 scenario_b 0 1
             (Frame [true; false; false] [0] 1 (Fin 10))); [lia| |exact Hstuck].
    eapply calls_step; [apply calls_here | reflexivity].
  - apply (proj2 find_best_stuck
             [[Inf; Fin 10; Inf]; [Fin 1; Inf; Inf]; [Inf; Inf; Inf]] Inf);
      reflexivity.
Defined.

(** C5. The answer of [next] is an unvisited candidate of finite weight;
    no unvisited candidate is cheaper, every unvisited candidate of a lower
    index is strictly dearer, and so among the unvisited candidates of
    the same weight it is the one of the lowest index. *)
Theorem next_first_minimum (N : nat) (g : list (list num)) (seen : list bool)
    (node : nat) (curr_cost cost' : num) (j : nat) :
  next N g seen node curr_cost = Ok (Some (cost', j)) ->
  j < N /\ seen !! j = Some false /\
  exists w, edge g node j = Ok w /\ num_ltb w Inf = true /\
    cost' = num_add curr_cost w /\
    (forall i, i < N -> seen !! i = Some false ->
       exists wi, edge g node i = Ok wi /\ num_ltb wi w = false /\
                  (i < j -> num_ltb w wi = true)) /\
    (forall i, i < N -> seen !! i = Some false -> edge g node i = Ok w ->
       j <= i).
Proof.
  intros H. apply next_selected in H as (Hj & Hsj & w & Hw & Hfin & Hc & Hall).
  split; [done|]. split; [done|]. exists w. repeat (split; [done|]).
  intros i Hi Hsi Hwi. destruct (decide (j <= i)) as [|Hlt]; [done|].
  destruct (Hall i Hi Hsi) as (wi & Hwi' & _ & Hstrict).
  rewrite Hwi in Hwi'. injection Hwi' as <-.
  rewrite num_ltb_irrefl in Hstrict. discriminate Hstrict. lia.
Qed.

Lemma next_first_minimum_witness :
  next 4 [[Inf; Fin 7; Fin 3; Fin 3]] [true; false; false; false] 0 (Fin 5)
    = Ok (Some (Fin 8, 2)) /\
  2 < 4.
Proof.
  split; [reflexivity|].
  apply (next_first_minimum 4 [[Inf; Fin 7; Fin 3; Fin 3]]
           [true; false; false; false] 0 (Fin 5) (Fin 8) 2).
  reflexivity.
Defined.

(** C8. Termination: on an [N x N] matrix and from a start node below [N],
    [find_best] returns within [N] calls of [tsp] and raises nothing; more
    fuel does not change its answer; every call starts at a node that is
    still unvisited, the call reached after [k] tail calls has [k] nodes
    on its path, with [k < N], and its body, with its one scan of
    [range(N)], runs to its end. *)
Theorem find_best_terminates (N : nat) (g : list (list num)) (start : nat) :
  1 <= N ->
  matrix_ok N g ->
  start < N ->
  (exists r, find_best_fuel N N g start = Some (Ok r)) /\
  (forall fuel, N <= fuel ->
     find_best_fuel fuel N g start = find_best_fuel N N g start) /\
  (forall k fr, calls N g k (initial N start) fr ->
     seen fr !! node fr = Some false /\ length (path fr) = k /\ k < N /\
     exists o, tsp_body N g fr = Ok o).
Proof.
  intros HN Hg Hstart.
  pose proof (walk_inv_initial N g start Hstart) as Hinit.
  destruct (tsp_fuel_enough N g start N _ Hinit) as [r Hr]; [simpl; lia|].
  assert (forall fuel, N <= fuel -> tsp fuel N g (initial N start) = Some r)
    as Hmono.
  { intros fuel Hle. by eapply tsp_fuel_mono. }
  destruct r as [[result p]|e];
    [|exfalso; by eapply (tsp_no_exception N g start N)].
  split; [|split].
  - unfold find_best_fuel. rewrite Hr.
    destruct result as [c|]; [destruct (truthy c)|]; eauto.
  - intros fuel Hle. unfold find_best_fuel. by rewrite Hr, (Hmono fuel Hle).
  - intros k fr Hcalls.
    destruct (calls_inv _ _ _ _ _ _ Hinit Hcalls) as [Hinv Hlen].
    simpl in Hlen. apply walk_inv_room in Hinv as Hroom.
    destruct (tsp_body_total _ _ _ _ Hg Hinv) as [o Ho].
    destruct Hinv. split; [done|]. split; [lia|]. split; [lia|eauto].
Qed.

Lemma find_best_terminates_witness :
  exists r, find_best_fuel 3 3 scenario_a 0 = Some (Ok r).
Proof.
  apply (find_best_terminates 3 scenario_a 0).
  - lia.
  - split; [reflexivity|]. repeat constructor.
  - lia.
Defined.

(** C9. A walk that completes with accumulated cost 0 makes [find_best]
    answer [None] instead of the completed path; the walk of a
    single-station graph, which has no edge, is such a walk. *)
Theorem find_best_zero_cost :
  (forall (N : nat) (g : list (list num)) (start k : nat) (fr : frame)
          (s : list bool) (p : list nat),
     calls N g k (initial N start) fr ->
     tsp_body N g fr = Ok (Return (Some (Fin 0)) s p) ->
     length p = N /\ find_best N g start = Some (Ok None))
  /\
  (forall g : list (list num),
     tsp_body 1 g (initial 1 0) = Ok (Return (Some (Fin 0)) [true] [0]) /\
     find_best 1 g 0 = Some (Ok None)).
Proof.
  split.
  - intros N g start k fr s p Hcalls Hbody. split.
    + apply tsp_body_Ok in Hbody as (_ & nd & _ & Ho). simpl in Ho.
      destruct (_ =? _) eqn:E.
      * apply Nat.eqb_eq in E. by injection Ho as _ _ ->.
      * destruct nd as [[c j]|]; discriminate Ho.
    + unfold find_best, find_best_fuel.
      by rewrite (tsp_initial_return _ _ _ _ _ _ _ _ Hcalls Hbody).
  - intros g. split; reflexivity.
Qed.

Lemma find_best_zero_cost_witness :
  find_best 2 [[Inf; Fin 0]; [Inf; Inf]] 0 = Some (Ok None).
Proof.
  apply (proj1 find_best_zero_cost 2 [[Inf; Fin 0]; [Inf; Inf]] 0 1
           (Frame [true; false] [0] 1 (Fin 0)) [true; true] [0; 1]).
  - eapply calls_step; [apply calls_here | reflexivity].
  - reflexivity.
Defined.

(** C10. At every call of [tsp] in a run of [find_best], and when the last
    call returns, an index occurs once in the path if it is marked visited
    and not at all otherwise; the path has no duplicate. *)
Theorem walk_consistent (N : nat) (g : list (list num)) (start k : nat)
    (fr : frame) :
  calls N g k (initial N start) fr ->
  consistent (seen fr) (path fr) /\ NoDup (path fr) /\
  forall result s p, tsp_body N g fr = Ok (Return result s p) ->
    consistent s p /\ NoDup p.
Proof.
  intros Hcalls.
  assert (start < N -> walk_inv N g start fr) as Hinv.
  { intros Hstart.
    by destruct (calls_inv N g start _ _ _ (walk_inv_initial N g start Hstart)
                   Hcalls). }
  assert (consistent (seen fr) (path fr)) as Hcons.
  { inversion Hcalls as [fr0|k0 fr0 fr1 fr2 Hprev Hstep]; subst.
    - apply consistent_initial.
    - destruct (calls_began _ _ _ _ _ _ Hprev Hstep) as [o Ho].
      apply initial_in_range in Ho. by destruct (Hinv Ho). }
  split; [done|]. split; [by eapply consistent_NoDup|].
  intros result s p Hbody.
  destruct (calls_began _ _ _ _ _ _ Hcalls Hbody) as [o Ho].
  apply initial_in_range in Ho.
  destruct (tsp_body_return _ _ _ _ _ _ _ (Hinv Ho) Hbody) as (_ & _ & Hc & _).
  split; [done | by eapply consistent_NoDup].
Qed.

Lemma walk_consistent_witness :
  consistent [true; false; false] [0] /\ NoDup [0].
Proof.
  destruct (walk_consistent 3 scenario_b 0 1
              (Frame [true; false; false] [0] 1 (Fin 10))) as (H1 & H2 & _).
  - eapply calls_step; [apply calls_here | reflexivity].
  - split; [exact H1 | exact H2].
Defined.

(** ** The station indexer *)

Lemma dict_mem_keys (v : dict) (s : Z) : dict_mem v s = true <-> s ∈ v.*1.
Proof. unfold dict_mem. by rewrite bool_decide_eq_true. Qed.

Lemma dict_set_fresh (v : dict) (s : Z) (x : nat) :
  s ∉ v.*1 -> dict_set v s x = v ++ [(s, x)].
Proof.
  induction v as [|[k y] v IH]; intros Hs; simpl; [done|].
  simpl in Hs. apply not_elem_of_cons in Hs as [Hne Hs].
  rewrite decide_False by done. by rewrite IH.
Qed.

Lemma index_station_keys (v : dict) (s : Z) :
  (index_station v s).*1 = if decide (s ∈ v.*1) then v.*1 else v.*1 ++ [s].
Proof.
  unfold index_station. destruct (dict_mem v s) eqn:E.
  - apply dict_mem_keys in E. by rewrite decide_True.
  - assert (s ∉ v.*1) as Hs.
    { intros Hs. apply dict_mem_keys in Hs. congruence. }
    rewrite decide_False, dict_set_fresh by done. by rewrite fmap_app.
Qed.

Lemma index_station_values (v : dict) (s : Z) :
  v.*2 = seq 0 (length v) ->
  (index_station v s).*2 = seq 0 (length (index_station v s)).
Proof.
  intros Hv. unfold index_station. destruct (dict_mem v s) eqn:E; [done|].
  assert (s ∉ v.*1) as Hs.
  { intros Hs. apply dict_mem_keys in Hs. congruence. }
  rewrite dict_set_fresh by done.
  rewrite fmap_app, length_app, seq_app, Hv. reflexivity.
Qed.

Lemma station_index_stations (data : list row) (v : dict) :
  fold_left index_row data v = fold_left index_station (stations data) v.
Proof.
  revert v. induction data as [|r data IH]; intros v; [done|].
  simpl. by rewrite IH.
Qed.

Lemma filter_absent_present (keys l : list Z) (s : Z) :
  s ∈ keys ->
  filter (fun x => x ∉ keys) (filter (fun x => x <> s) l)
  = filter (fun x => x ∉ keys) l.
Proof.
  intros Hs. induction l as [|x l IH]; [done|].
  rewrite !filter_cons. destruct (decide (x <> s)) as [Hne|Heq].
  - rewrite filter_cons. case_decide; by rewrite IH.
  - apply dec_stable in Heq as ->. rewrite decide_False by (intros H; by apply H).
    done.
Qed.

Lemma filter_absent_snoc (keys l : list Z) (s : Z) :
  filter (fun x => x ∉ keys ++ [s]) l
  = filter (fun x => x ∉ keys) (filter (fun x => x <> s) l).
Proof.
  induction l as [|x l IH]; [done|].
  rewrite !filter_cons. destruct (decide (x <> s)) as [Hne|Heq].
  - rewrite filter_cons. destruct (decide (x ∉ keys)) as [Hx|Hx].
    + rewrite decide_True; [by rewrite IH|].
      rewrite elem_of_app, list_elem_of_singleton. tauto.
    + rewrite decide_False; [done|].
      rewrite elem_of_app. tauto.
  - apply dec_stable in Heq as ->. rewrite decide_False; [done|].
    rewrite elem_of_app, list_elem_of_singleton. tauto.
Qed.

Lemma index_stations_keys (l : list Z) (v : dict) :
  (fold_left index_station l v).*1
  = v.*1 ++ filter (fun x => x ∉ v.*1) (first_seen l).
Proof.
  revert v. induction l as [|s l IH]; intros v; simpl.
  - by rewrite filter_nil, app_nil_r.
  - rewrite IH, index_station_keys, filter_cons. case_decide as Hs.
    + rewrite decide_False by tauto. by rewrite filter_absent_present.
    + rewrite decide_True by done. rewrite <- app_assoc. simpl.
      by rewrite filter_absent_snoc.
Qed.

Lemma index_stations_values (l : list Z) (v : dict) :
  v.*2 = seq 0 (length v) ->
  (fold_left index_station l v).*2
  = seq 0 (length (fold_left index_station l v)).
Proof.
  revert v. induction l as [|s l IH]; intros v Hv; simpl; [done|].
  apply IH. by apply index_station_values.
Qed.

Lemma first_seen_elem (l : list Z) (x : Z) : x ∈ first_seen l <-> x ∈ l.
Proof.
  induction l as [|s l IH]; simpl; [done|].
  rewrite !elem_of_cons, list_elem_of_filter, IH.
  destruct (decide (x = s)); tauto.
Qed.

Lemma first_seen_NoDup (l : list Z) : NoDup (first_seen l).
Proof.
  induction l as [|s l IH]; simpl; [constructor|].
  constructor.
  - rewrite list_elem_of_filter. tauto.
  - by apply NoDup_filter.
Qed.

(** Reading an association list whose values count up from [k]. *)
Lemma dict_lookup_counted (v : dict) (k : nat) (s : Z) (i : nat) :
  v.*2 = seq k (length v) ->
  NoDup v.*1 ->
  dict_lookup v s = Some i <-> k <= i /\ v.*1 !! (i - k) = Some s.
Proof.
  revert k. induction v as [|[s0 x0] v IH]; intros k Hv Hnd; simpl in *.
  - split; [done | by intros [_ ?]].
  - injection Hv as -> Hv. apply NoDup_cons in Hnd as [Hs0 Hnd].
    specialize (IH (S k) Hv Hnd).
    destruct (decide (s = s0)) as [->|Hne].
    + split.
      * intros [= <-]. split; [lia|]. by rewrite Nat.sub_diag.
      * intros [Hle Hi]. destruct (i - k) as [|d] eqn:E; [f_equal; lia|].
        simpl in Hi. apply list_elem_of_lookup_2 in Hi. done.
    + rewrite IH. split.
      * intros [Hle Hi]. split; [lia|].
        replace (i - k) with (S (i - S k)) by lia. done.
      * intros [Hle Hi]. destruct (i - k) as [|d] eqn:E; simpl in Hi.
        -- congruence.
        -- split; [lia|]. replace (i - S k) with d by lia. done.
Qed.

Lemma filter_absent_nil (l : list Z) : filter (fun x => x ∉ []) l = l.
Proof.
  induction l as [|x l IH]; [done|].
  rewrite filter_cons_True by apply not_elem_of_nil. by rewrite IH.
Qed.

Lemma station_index_keys (data : list row) :
  (station_index data).*1 = first_seen (stations data).
Proof.
  unfold station_index. rewrite station_index_stations, index_stations_keys.
  simpl. apply filter_absent_nil.
Qed.

Lemma station_index_values (data : list row) :
  (station_index data).*2 = seq 0 (length (station_index data)).
Proof.
  unfold station_index. rewrite station_index_stations.
  by apply index_stations_values.
Qed.

Lemma dict_get_Ok (v : dict) (s : Z) (i : nat) :
  dict_get v s = Ok i <-> dict_lookup v s = Some i.
Proof. unfold dict_get. destruct (dict_lookup v s); split; congruence. Qed.

Lemma station_index_get (data : list row) (s : Z) (i : nat) :
  dict_get (station_index data) s = Ok i
  <-> first_seen (stations data) !! i = Some s.
Proof.
  rewrite dict_get_Ok, (dict_lookup_counted _ 0).
  - rewrite station_index_keys, Nat.sub_0_r. split; [by intros [_ ?]|].
    intros H. split; [lia|done].
  - apply station_index_values.
  - rewrite station_index_keys. apply first_seen_NoDup.
Qed.

(** C7. The indexer gives the stations, in the order of their first
    occurrence in the scan of origins and destinations, the indices
    0, 1, 2, ...: every station of the records gets one index, the indices
    are exactly those below the size of the mapping, the mapping depends
    on the record sequence alone, and no record gives the empty mapping. *)
Theorem station_index_dense (data : list row) :
  (station_index data).*1 = first_seen (stations data) /\
  (station_index data).*2 = seq 0 (length (station_index data)) /\
  NoDup (station_index data).*1 /\
  (forall s, s ∈ (station_index data).*1 <-> s ∈ stations data) /\
  (forall s i, dict_get (station_index data) s = Ok i
               <-> first_seen (stations data) !! i = Some s) /\
  (forall i, i < length (station_index data)
             <-> exists s, dict_get (station_index data) s = Ok i) /\
  (forall data', data' = data -> station_index data' = station_index data) /\
  station_index [] = [].
Proof.
  pose proof (station_index_keys data) as Hkeys.
  split; [done|]. split; [apply station_index_values|].
  split; [rewrite Hkeys; apply first_seen_NoDup|].
  split; [intros s; rewrite Hkeys; apply first_seen_elem|].
  split; [apply station_index_get|].
  split; [|split; [by intros ? ->|done]].
  intros i. rewrite <- (length_fmap fst), Hkeys. split.
  - intros Hi. apply lookup_lt_is_Some_2 in Hi as [s Hs].
    exists s. by apply station_index_get.
  - intros [s Hs]. apply station_index_get in Hs. by eapply lookup_lt_Some.
Qed.

Example station_index_run :
  station_index [Row 1 30 10 5 60; Row 2 10 20 7 30; Row 3 30 20 1 10]
  = [(30%Z, 0); (10%Z, 1); (20%Z, 2)].
Proof. reflexivity. Qed.

(** ** The weight matrix builder *)


Lemma edge_Ok (g : list (list num)) (i j : nat) (c : num) :
  edge g i j = Ok c <-> exists line, g !! i = Some line /\ line !! j = Some c.
Proof.
  unfold edge. split.
  - intros H. bind_inv H. apply getitem_Ok in Ha, H. eauto.
  - intros (line & Hl & Hc). apply getitem_Ok in Hl. rewrite Hl. simpl.
    by apply getitem_Ok.
Qed.

Lemma matrix_ok_replicate (N : nat) :
  matrix_ok N (replicate N (replicate N Inf)).
Proof.
  split; [apply length_replicate|].
  apply Forall_replicate, length_replicate.
Qed.

Lemma edge_replicate (N i j : nat) :
  i < N -> j < N -> edge (replicate N (replicate N Inf)) i j = Ok Inf.
Proof.
  intros Hi Hj. apply edge_Ok. exists (replicate N Inf).
  split; by apply lookup_replicate.
Qed.

Lemma to_matr_step_Ok (v : dict) (kind : Z) (matr : list (list num))
    (r : row) (N a b : nat) :
  (kind = 0 \/ kind = 1)%Z ->
  matrix_ok N matr ->
  contributes v a b r -> a < N -> b < N ->
  exists matr', to_matr_step v kind matr r = Ok matr' /\
    matrix_ok N matr' /\
    forall i j c, edge matr i j = Ok c ->
      edge matr' i j
      = Ok (if decide (contributes v i j r) then relax (weight kind r) c
            else c).
Proof.
  intros Hkind [Hlen Hrows] [Ha Hb] HaN HbN.
  destruct (lookup_lt_is_Some_2 matr a) as [line Hline]; [lia|].
  assert (length line = N) as Hll.
  { rewrite Forall_forall in Hrows. apply Hrows.
    by eapply list_elem_of_lookup_2. }
  destruct (lookup_lt_is_Some_2 line b) as [c0 Hc0]; [lia|].
  assert (to_matr_step v kind matr r
          = if num_ltb (weight kind r) c0
            then Ok (<[a:=<[b:=weight kind r]> line]> matr) else Ok matr) as ->.
  { unfold to_matr_step, dict_get, getitem, setitem. rewrite Ha, Hb.
    assert ((if (kind =? 0)%Z then Ok (Fin (price r))
             else if (kind =? 1)%Z then Ok (Fin (seconds r))
             else Raise Exception_) = Ok (weight kind r)) as ->.
    { unfold weight. destruct Hkind as [-> | ->]; reflexivity. }
    cbn [bind]. rewrite Hline. cbn [bind]. rewrite Hc0. cbn [bind].
    destruct (num_ltb (weight kind r) c0); [|done].
    rewrite decide_True by lia. cbn [bind]. by rewrite decide_True by lia. }
  assert (forall i j, contributes v i j r <-> i = a /\ j = b) as Hiff.
  { intros i j. unfold contributes. rewrite Ha, Hb.
    split; [intros [[= ->] [= ->]]; done | intros [-> ->]; done]. }
  destruct (num_ltb (weight kind r) c0) eqn:Hlt.
  - eexists. split; [done|]. split.
    + split; [by rewrite length_insert|].
      apply Forall_insert; [done|]. by rewrite length_insert.
    + intros i j c Hc. apply edge_Ok in Hc as (l & Hl & Hc). apply edge_Ok.
      destruct (decide (i = a)) as [->|Hia].
      * rewrite list_lookup_insert_eq by lia.
        eexists. split; [done|].
        assert (l = line) as -> by congruence.
        destruct (decide (j = b)) as [->|Hjb].
        -- rewrite list_lookup_insert_eq by lia.
           rewrite decide_True by (by apply Hiff).
           unfold relax. assert (c = c0) as -> by congruence. by rewrite Hlt.
        -- rewrite list_lookup_insert_ne by done.
           rewrite decide_False; [done|]. rewrite Hiff. tauto.
      * rewrite list_lookup_insert_ne by done. exists l. split; [done|].
        rewrite decide_False; [done|]. rewrite Hiff. tauto.
  - exists matr. split; [done|]. split; [done|].
    intros i j c Hc. rewrite Hc. f_equal.
    case_decide as Hij; [|done]. apply Hiff in Hij as [-> ->].
    apply edge_Ok in Hc as (l & Hl & Hc).
    assert (c = c0) as -> by congruence. unfold relax. by rewrite Hlt.
Qed.

Lemma to_matr_loop_Ok (v : dict) (kind : Z) (data : list row)
    (matr : list (list num)) :
  (kind = 0 \/ kind = 1)%Z ->
  matrix_ok (length v) matr ->
  covers v data ->
  exists matr', to_matr_loop v kind data matr = Ok matr' /\
    matrix_ok (length v) matr' /\
    forall i j c, edge matr i j = Ok c ->
      edge matr' i j = Ok (relax_all v kind i j data c).
Proof.
  intros Hkind. revert matr.
  induction data as [|r data IH]; intros matr Hok Hcov; simpl.
  - exists matr. split; [done|]. split; [done|]. intros i j c Hc. exact Hc.
  - destruct (Hcov r) as (a & b & Hab & Ha & Hb); [by left|].
    destruct (to_matr_step_Ok v kind matr r _ a b Hkind Hok Hab Ha Hb)
      as (m1 & -> & Hok1 & Hcell1).
    simpl. destruct (IH m1 Hok1) as (m2 & -> & Hok2 & Hcell2).
    { intros r' Hr'. apply Hcov. by right. }
    exists m2. split; [done|]. split; [done|].
    intros i j c Hc. apply Hcell2, Hcell1, Hc.
Qed.

(** The value left by the relaxations is a lower bound of the start value
    and of every contributing weight, and it is one of them. *)
Lemma relax_all_min (v : dict) (kind : Z) (i j : nat) (data : list row)
    (cell : num) :
  num_ltb cell (relax_all v kind i j data cell) = false /\
  (forall r, r ∈ data -> contributes v i j r ->
     num_ltb (weight kind r) (relax_all v kind i j data cell) = false) /\
  (relax_all v kind i j data cell = cell \/
   exists r, r ∈ data /\ contributes v i j r /\
     relax_all v kind i j data cell = weight kind r).
Proof.
  revert cell. induction data as [|r data IH]; intros cell; simpl.
  - split; [apply num_ltb_irrefl|]. split; [|by left].
    intros r Hr. by apply elem_of_nil in Hr.
  - set (cell' := if decide (contributes v i j r)
                  then relax (weight kind r) cell else cell).
    destruct (IH cell') as (Hle & Hall & Hin).
    assert (num_ltb cell cell' = false) as Hcc.
    { unfold cell', relax. case_decide; [|apply num_ltb_irrefl].
      destruct (num_ltb _ cell) eqn:E; [|apply num_ltb_irrefl].
      by apply num_ltb_asym. }
    split; [|split].
    + by eapply num_ltb_chain.
    + intros r' Hr' Hc. apply elem_of_cons in Hr' as [->|Hr']; [|by apply Hall].
      assert (num_ltb (weight kind r) cell' = false) as Hwc.
      { unfold cell', relax. rewrite decide_True by done.
        destruct (num_ltb _ cell) eqn:E; [apply num_ltb_irrefl | done]. }
      by eapply num_ltb_chain.
    + destruct Hin as [Heq|(r' & Hr' & Hc & Heq)].
      * rewrite Heq. unfold cell', relax. case_decide as Hc; [|by left].
        destruct (num_ltb _ cell); [|by left].
        right. exists r. split; [by left|done].
      * right. exists r'. split; [by right|done].
Qed.

(** C3. Matrix minimality: for a station index [v] that covers the records
    and a recognized dimension, [to_matr] returns a matrix of [len(v)] rows
    of [len(v)] cells; the cell [(i, j)] is no greater than the weight of
    any record from [i] to [j], it is the weight of one of them when there
    is one, and it is infinite when there is none. *)
Theorem to_matr_minimal (v : dict) (data : list row) (kind : Z) :
  (kind = 0 \/ kind = 1)%Z ->
  covers v data ->
  exists matr, to_matr v data kind = Ok matr /\
    matrix_ok (length v) matr /\
    forall i j, i < length v -> j < length v ->
      exists cell, edge matr i j = Ok cell /\
        (forall r, r ∈ data -> contributes v i j r ->
           num_ltb (weight kind r) cell = false) /\
        ((exists r, r ∈ data /\ contributes v i j r) ->
           exists r, r ∈ data /\ contributes v i j r /\ cell = weight kind r) /\
        ((forall r, r ∈ data -> ~ contributes v i j r) -> cell = Inf).
Proof.
  intros Hkind Hcov. unfold to_matr.
  destruct (to_matr_loop_Ok v kind data _ Hkind
              (matrix_ok_replicate (length v)) Hcov) as (matr & -> & Hok & Hcell).
  exists matr. split; [done|]. split; [done|].
  intros i j Hi Hj. eexists. split; [apply Hcell; by apply edge_replicate|].
  destruct (relax_all_min v kind i j data Inf) as (_ & Hall & Hin).
  split; [exact Hall|]. split.
  - intros (r & Hr & Hc). destruct Hin as [Heq|Hin]; [|exact Hin].
    specialize (Hall r Hr Hc). rewrite Heq in Hall.
    unfold weight in Hall. by destruct (kind =? 0)%Z.
  - intros Hnone. destruct Hin as [Heq|(r & Hr & Hc & _)]; [done|].
    by destruct (Hnone r Hr).
Qed.

Lemma to_matr_minimal_witness :
  to_matr (station_index scenario_d) scenario_d 0 = Ok [[Inf; Fin 8]; [Inf; Inf]]
  /\ exists matr, to_matr (station_index scenario_d) scenario_d 0 = Ok matr /\
       matrix_ok 2 matr.
Proof.
  split; [reflexivity|].
  destruct (to_matr_minimal (station_index scenario_d) scenario_d 0)
    as (matr & Hm & Hok & _).
  - left. reflexivity.
  - unfold covers. apply Forall_forall. repeat constructor.
    + exists 0, 1. repeat split; simpl; lia.
    + exists 0, 1. repeat split; simpl; lia.
  - exists matr. split; [exact Hm | exact Hok].
Defined.

Example scenario_d_duration :
  to_matr (station_index scenario_d) scenario_d 1 = Ok [[Inf; Fin 60]; [Inf; Inf]].
Proof. reflexivity. Qed.

Example scenario_d_reversed :
  to_matr [(100%Z, 0); (200%Z, 1)]
    [Row 2 100 200 8 90; Row 1 100 200 20 60] 0
  = Ok [[Inf; Fin 8]; [Inf; Inf]].
Proof. reflexivity. Qed.

(** X7. With at least one record an unrecognized dimension raises the
    exception of [to_matr] at the first record, before any station is
    looked up: the stations of the records need not be in [v]. *)
Lemma to_matr_bad_kind_raises (v : dict) (r : row) (data : list row) (kind : Z) :
  kind <> 0%Z -> kind <> 1%Z ->
  to_matr v (r :: data) kind = Raise Exception_.
Proof.
  intros H0 H1. unfold to_matr. simpl. unfold to_matr_step.
  apply Z.eqb_neq in H0, H1. by rewrite H0, H1.
Qed.

(** C6. Without records the dimension is never looked at: [to_matr]
    returns the matrix of infinite cells for every [kind], the
    unrecognized ones included, and raises nothing. *)
Theorem to_matr_no_records (v : dict) (kind : Z) :
  to_matr v [] kind = Ok (replicate (length v) (replicate (length v) Inf)) /\
  to_matr [] [] 2 = Ok [].
Proof. split; reflexivity. Qed.

(** * Further properties *)

(** ** More on [find_best] *)

(** X1. A start node that is not below [N] makes [find_best] raise
    [IndexError] at [seen[node] = True], whatever the matrix; with
    [N = 0] that is every start node. *)
Theorem find_best_start_out_of_range (N : nat) (g : list (list num))
    (start : nat) :
  N <= start -> find_best N g start = Some (Raise IndexError).
Proof.
  intros H. unfold find_best, find_best_fuel. simpl.
  rewrite initial_out_of_range by lia. reflexivity.
Qed.

Lemma find_best_start_out_of_range_witness :
  find_best 3 scenario_a 7 = Some (Raise IndexError).
Proof. apply (find_best_start_out_of_range 3 scenario_a 7). lia. Defined.

Lemma next_loop_off_diagonal (g g' : list (list num)) (seen : list bool)
    (node : nat) (range : list nat) (mn : Z * num) (tc : num) :
  (forall j, j <> node -> edge g node j = edge g' node j) ->
  seen !! node = Some true ->
  next_loop g seen node range mn tc = next_loop g' seen node range mn tc.
Proof.
  intros Hg Hnode. revert mn tc.
  induction range as [|i range IH]; intros mn tc; simpl; [done|].
  destruct (getitem seen i) as [s|e] eqn:Hs; simpl; [|done].
  apply getitem_Ok in Hs. destruct s; simpl; [apply IH|].
  rewrite <- Hg by congruence.
  destruct (edge g node i) as [w|e]; simpl; [|done].
  destruct (num_ltb w mn.2); apply IH.
Qed.

Lemma tsp_body_off_diagonal (N : nat) (g g' : list (list num)) (fr : frame) :
  (forall i j, i <> j -> edge g i j = edge g' i j) ->
  tsp_body N g fr = tsp_body N g' fr.
Proof.
  intros Hg. unfold tsp_body, setitem. case_decide as Hlt; [|done]. simpl.
  unfold next. rewrite (next_loop_off_diagonal g g'); [done| |].
  - intros j Hj. apply Hg. congruence.
  - by apply list_lookup_insert_eq.
Qed.

(** X2. The cells [g[i][i]] are never read: two matrices that agree off
    the diagonal give the same answer, the same exception included. *)
Theorem find_best_ignores_diagonal (N : nat) (g g' : list (list num))
    (start : nat) :
  (forall i j, i <> j -> edge g i j = edge g' i j) ->
  find_best N g start = find_best N g' start.
Proof.
  intros Hg. unfold find_best, find_best_fuel.
  assert (forall fuel fr, tsp fuel N g fr = tsp fuel N g' fr) as ->; [|done].
  induction fuel as [|fuel IH]; intros fr; simpl; [done|].
  rewrite (tsp_body_off_diagonal N g g') by done.
  destruct (tsp_body N g' fr) as [[r s p|fr']|e]; [done|apply IH|done].
Qed.

Lemma find_best_ignores_diagonal_witness :
  find_best 3 [[Fin 0; Fin 10; Fin 50]; [Inf; Fin (-4); Fin 5]; [Inf; Inf]] 0
  = find_best 3 scenario_a 0.
Proof.
  apply (find_best_ignores_diagonal 3).
  intros i j Hij.
  destruct i as [|[|[|i]]]; destruct j as [|[|[|j]]];
    try reflexivity; try congruence; by destruct j.
Defined.

(** What a returned result tells about the last call of the walk. *)
Lemma find_best_Some_walk (N : nat) (g : list (list num)) (start : nat)
    (c : num) (p : list nat) :
  find_best N g start = Some (Ok (Some (c, p))) ->
  start < N /\ truthy c = true /\
  exists k fr s, calls N g k (initial N start) fr /\
    walk_inv N g start fr /\ cost fr = c /\ p = path fr ++ [node fr] /\
    length p = N /\ consistent s p /\ length s = N.
Proof.
  intros H. apply find_best_Some in H as [H Hc].
  apply tsp_initial_result in H as (Hstart & k & fr & s & Hcalls & Hinv & Hbody).
  destruct (tsp_body_return _ _ _ _ _ _ _ Hinv Hbody)
    as (Hs & Hp & Hcons & [[Hlen [= ->]]|(_ & [=] & _)]).
  split; [done|]. split; [done|]. exists k, fr, s.
  repeat (split; [done|]). rewrite Hs, length_insert. by destruct Hinv.
Qed.

Lemma find_best_Some_path (N : nat) (g : list (list num)) (start : nat)
    (c : num) (p : list nat) :
  find_best N g start = Some (Ok (Some (c, p))) ->
  start < N /\ p ≡ₚ seq 0 N /\ head p = Some start /\
  path_cost g p = Ok c /\ exists z, c = Fin z /\ z <> 0%Z.
Proof.
  intros H. apply find_best_Some_walk in H
    as (Hstart & Hc & k & fr & s & _ & Hinv & <- & -> & Hlen & Hcons & Hls).
  destruct Hinv as [_ _ _ Hhead Hcost [z Hz]].
  split; [done|]. split; [|split; [done|split; [done|]]].
  - rewrite <- Hls. apply consistent_full; [done|lia].
  - exists z. split; [done|]. rewrite Hz in Hc. simpl in Hc.
    intros ->. done.
Qed.

(** X3. On a start node below [N], [find_best] answers [None] exactly in
    two cases: a call of the walk is stuck, or the walk completes with
    cost 0. *)
Theorem find_best_None_iff (N : nat) (g : list (list num)) (start : nat) :
  start < N ->
  find_best N g start = Some (Ok None) <->
  exists k fr, calls N g k (initial N start) fr /\
    (stuck N g fr \/
     exists s p, tsp_body N g fr = Ok (Return (Some (Fin 0)) s p)).
Proof.
  intros Hstart. split.
  - unfold find_best, find_best_fuel. intros H.
    destruct (tsp (S N) N g (initial N start)) as [[[result p]|e]|] eqn:E;
      [|done|done].
    apply tsp_initial_result in E as (_ & k & fr & s & Hcalls & Hinv & Hbody).
    exists k, fr. split; [done|].
    destruct (tsp_body_return _ _ _ _ _ _ _ Hinv Hbody)
      as (Hs & Hp & _ & [[Hlen ->]|(Hlen & -> & Hsel)]).
    + right. exists s, p. destruct (cost fr) as [z|] eqn:Hz; simpl in H; [|done].
      destruct (z =? 0)%Z eqn:Ez; [|done]. apply Z.eqb_eq in Ez as ->. done.
    + left. split.
      * rewrite Hp, length_app in Hlen. simpl in Hlen. lia.
      * intros i Hi Hne Hsi. apply Hsel; [done|].
        rewrite Hs. by rewrite list_lookup_insert_ne.
  - intros (k & fr & Hcalls & [Hstuck|(s & p & Hbody)]).
    + destruct (calls_inv N g start _ _ _ (walk_inv_initial N g start Hstart)
                  Hcalls) as [Hinv _].
      pose proof (stuck_return _ _ _ _ Hinv Hstuck) as Hbody.
      unfold find_best, find_best_fuel.
      by rewrite (tsp_initial_return _ _ _ _ _ _ _ _ Hcalls Hbody).
    + unfold find_best, find_best_fuel.
      by rewrite (tsp_initial_return _ _ _ _ _ _ _ _ Hcalls Hbody).
Qed.

Lemma find_best_None_iff_witness :
  exists k fr, calls 3 scenario_b k (initial 3 0) fr /\
    (stuck 3 scenario_b fr \/
     exists s p, tsp_body 3 scenario_b fr = Ok (Return (Some (Fin 0)) s p)).
Proof.
  apply (find_best_None_iff 3 scenario_b 0); [lia | reflexivity].
Defined.

Lemma greedy_path_snoc (N : nat) (g : list (list num)) (p : list nat)
    (a b : nat) :
  greedy_path N g (p ++ [a]) ->
  greedy_step N g (p ++ [a]) a b ->
  greedy_path N g ((p ++ [a]) ++ [b]).
Proof.
  intros Hp Hab k x y Hx Hy.
  assert (length (p ++ [a]) = S (length p)) as Hlen
    by (rewrite length_app; simpl; lia).
  destruct (decide (S k < length (p ++ [a]))) as [Hk|Hk].
  - rewrite lookup_app_l in Hx, Hy by lia.
    rewrite take_app_le by lia. by apply Hp.
  - assert (k = length p) as ->.
    { apply lookup_lt_Some in Hy. rewrite length_app in Hy. simpl in Hy. lia. }
    rewrite lookup_app_l in Hx by lia.
    rewrite lookup_app_r in Hx by lia. rewrite Nat.sub_diag in Hx.
    injection Hx as <-.
    rewrite lookup_app_r in Hy by lia.
    replace (S (length p) - length (p ++ [a])) with 0 in Hy by lia.
    injection Hy as <-.
    rewrite take_app_le by lia. rewrite take_ge by lia. done.
Qed.

Lemma calls_greedy (N : nat) (g : list (list num)) (start k : nat)
    (fr : frame) :
  start < N ->
  calls N g k (initial N start) fr ->
  greedy_path N g (path fr ++ [node fr]).
Proof.
  intros Hstart Hcalls.
  pose proof (walk_inv_initial N g start Hstart) as Hinit.
  remember (initial N start) as fr0 eqn:E.
  induction Hcalls as [fr|k fr fr' fr'' Hprev IH Hstep]; subst.
  - intros i a b _ Hb. simpl in Hb. by destruct i.
  - specialize (IH eq_refl Hinit).
    destruct (calls_inv _ _ _ _ _ _ Hinit Hprev) as [Hinv' _].
    destruct (tsp_body_recurse _ _ _ _ _ Hinv' Hstep)
      as (Hinv'' & Hs & Hp & _ & Hsel).
    rewrite Hp. apply greedy_path_snoc; [done|].
    destruct Hsel as (_ & _ & w & Hw & Hfin & _ & Hall).
    exists w. split; [done|]. split; [done|].
    intros j Hj Hnot. apply Hall; [done|].
    destruct Hinv'' as [Hlen Hcons _ _ _ _].
    rewrite Hp in Hcons.
    destruct (lookup_lt_is_Some_2 (seen fr'') j) as [[] Hsj]; [lia| |done].
    apply (consistent_elem _ _ _ Hcons) in Hsj. done.
Qed.

(** X4. A returned path is the greedy one: each of its steps goes to a
    station of finite weight, no station left unvisited at that step is
    cheaper, and those of a lower index are strictly dearer. *)
Theorem find_best_greedy (N : nat) (g : list (list num)) (start : nat)
    (c : num) (p : list nat) :
  find_best N g start = Some (Ok (Some (c, p))) ->
  greedy_path N g p.
Proof.
  intros H. apply find_best_Some_walk in H
    as (Hstart & _ & k & fr & s & Hcalls & _ & _ & -> & _).
  by eapply calls_greedy.
Qed.

Lemma find_best_greedy_witness : greedy_path 3 scenario_a [0; 1; 2].
Proof.
  apply (find_best_greedy 3 scenario_a 0 (Fin 15) [0; 1; 2]). reflexivity.
Defined.

Lemma path_cost_nonnegative (g : list (list num)) (p : list nat) (z : Z) :
  nonnegative g -> path_cost g p = Ok (Fin z) -> (0 <= z)%Z.
Proof.
  intros Hg. revert z. induction p as [|a p IH]; intros z H.
  - injection H as <-. lia.
  - destruct p as [|b p]; [injection H as <-; lia|].
    cbn [path_cost] in H. bind_inv H. bind_inv H. injection H as H.
    destruct a0 as [zw|], a1 as [zc|]; simpl in H; try done.
    injection H as <-. apply Hg in Ha. apply IH in Ha0. lia.
Qed.

(** X5. On the exact numbers, that is when the weights are [int]s and
    [math.inf] as in the pass over the durations, a returned cost is a
    finite number other than 0, and it is positive when the matrix holds
    no negative weight. (The additions of float prices can overflow to
    [math.inf]: [prices_overflow_run].) *)
Theorem find_best_cost_positive (N : nat) (g : list (list num))
    (start : nat) (c : num) (p : list nat) :
  find_best N g start = Some (Ok (Some (c, p))) ->
  exists z, c = Fin z /\ z <> 0%Z /\ (nonnegative g -> (0 < z)%Z).
Proof.
  intros H. apply find_best_Some_path in H
    as (_ & _ & _ & Hcost & z & -> & Hz).
  exists z. split; [done|]. split; [done|].
  intros Hg. pose proof (path_cost_nonnegative _ _ _ Hg Hcost). lia.
Qed.

Lemma find_best_cost_positive_witness :
  exists z, Fin 15 = Fin z /\ z <> 0%Z /\ (nonnegative scenario_a -> (0 < z)%Z).
Proof.
  apply (find_best_cost_positive 3 scenario_a 0 (Fin 15) [0; 1; 2]).
  reflexivity.
Defined.

Lemma edge_Raise (g : list (list num)) (i j : nat) (e : exn) :
  edge g i j = Raise e -> e = IndexError.
Proof.
  unfold edge, getitem. destruct (g !! i) as [line|]; simpl; [|congruence].
  destruct (line !! j); congruence.
Qed.

Lemma next_loop_Raise (g : list (list num)) (seen : list bool) (node : nat)
    (range : list nat) (mn : Z * num) (tc : num) :
  (forall i, i ∈ range -> is_Some (seen !! i)) ->
  (exists i e, i ∈ range /\ seen !! i = Some false /\
     edge g node i = Raise e) ->
  next_loop g seen node range mn tc = Raise IndexError.
Proof.
  revert mn tc. induction range as [|i range IH];
    intros mn tc Hseen (i0 & e & Hin & Hs0 & He).
  - by apply elem_of_nil in Hin.
  - simpl. destruct (Hseen i) as [s Hs]; [by left|].
    unfold getitem at 1. rewrite Hs. simpl.
    assert (forall mn tc, i0 <> i ->
              next_loop g seen node range mn tc = Raise IndexError) as Hrest.
    { intros mn0 tc0 Hne. apply IH.
      - intros j Hj. apply Hseen. by right.
      - exists i0, e. apply elem_of_cons in Hin as [->|Hin]; done. }
    destruct s; simpl.
    + apply Hrest. congruence.
    + destruct (edge g node i) as [w|e'] eqn:Hw; simpl.
      * destruct (num_ltb w mn.2); apply Hrest; congruence.
      * by rewrite (edge_Raise _ _ _ _ Hw).
Qed.

(** X6. A matrix that lacks a cell [g[start][i]] of another station [i]
    makes [find_best] raise [IndexError] in the first scan. *)
Theorem find_best_missing_cell (N : nat) (g : list (list num))
    (start i : nat) (e : exn) :
  start < N -> i < N -> i <> start ->
  edge g start i = Raise e ->
  find_best N g start = Some (Raise IndexError).
Proof.
  intros Hstart Hi Hne He. unfold find_best, find_best_fuel. simpl.
  assert (tsp_body N g (initial N start) = Raise IndexError) as ->; [|done].
  unfold tsp_body, setitem. simpl.
  rewrite length_replicate, decide_True by done. simpl. unfold next.
  rewrite next_loop_Raise; [done| |].
  - intros j Hj. apply elem_of_seq in Hj. apply lookup_lt_is_Some.
    rewrite length_insert, length_replicate. lia.
  - exists i, e. split; [apply elem_of_seq; lia|]. split; [|done].
    rewrite list_lookup_insert_ne by done. by apply lookup_replicate.
Qed.

Lemma find_best_missing_cell_witness :
  find_best 3 [[Inf; Fin 10]; [Inf; Inf; Fin 5]] 0 = Some (Raise IndexError).
Proof.
  apply (find_best_missing_cell 3 [[Inf; Fin 10]; [Inf; Inf; Fin 5]] 0 2
           IndexError); (lia || reflexivity).
Defined.

(** ** More on [to_matr] *)

Lemma to_matr_bad_kind_raises_witness :
  to_matr [] [Row 1 10 20 5 60] 7 = Raise Exception_.
Proof. apply (to_matr_bad_kind_raises [] (Row 1 10 20 5 60) [] 7); lia. Defined.

Lemma to_matr_loop_app (v : dict) (kind : Z) (pre rest : list row)
    (matr : list (list num)) :
  to_matr_loop v kind (pre ++ rest) matr
  = (matr' <- to_matr_loop v kind pre matr ;; to_matr_loop v kind rest matr').
Proof.
  revert matr. induction pre as [|r pre IH]; intros matr; simpl; [done|].
  destruct (to_matr_step v kind matr r) as [m1|e]; simpl; [apply IH|done].
Qed.

(** X8. What the two station lookups of a record raise, for a
    recognized dimension and after records that are covered, whatever
    records follow: [KeyError] when the origin is not a key of [v];
    [IndexError] when the origin has an index that is not below [len(v)],
    the destination not being looked at; with the origin in order,
    [KeyError] when the destination is not a key of [v] and [IndexError]
    when its index is not below [len(v)]. *)
Theorem to_matr_missing_station (v : dict) (pre post : list row) (r : row)
    (kind : Z) :
  (kind = 0 \/ kind = 1)%Z ->
  covers v pre ->
  (dict_lookup v (origin r) = None ->
     to_matr v (pre ++ r :: post) kind = Raise KeyError) /\
  (forall a, dict_lookup v (origin r) = Some a -> length v <= a ->
     to_matr v (pre ++ r :: post) kind = Raise IndexError) /\
  (forall a, dict_lookup v (origin r) = Some a -> a < length v ->
     dict_lookup v (destination r) = None ->
     to_matr v (pre ++ r :: post) kind = Raise KeyError) /\
  (forall a b, dict_lookup v (origin r) = Some a -> a < length v ->
     dict_lookup v (destination r) = Some b -> length v <= b ->
     to_matr v (pre ++ r :: post) kind = Raise IndexError).
Proof.
  intros Hkind Hcov. unfold to_matr. rewrite to_matr_loop_app.
  destruct (to_matr_loop_Ok v kind pre _ Hkind
              (matrix_ok_replicate (length v)) Hcov)
    as (m1 & -> & [Hlen Hrows] & _).
  simpl. unfold to_matr_step.
  assert ((if (kind =? 0)%Z then Ok (Fin (price r))
           else if (kind =? 1)%Z then Ok (Fin (seconds r))
           else Raise Exception_) = Ok (weight kind r)) as ->.
  { unfold weight. destruct Hkind as [-> | ->]; reflexivity. }
  cbn [bind]. unfold dict_get.
  assert (forall a, a < length v -> exists line,
            m1 !! a = Some line /\ length line = length v) as Hline.
  { intros a Ha. destruct (lookup_lt_is_Some_2 m1 a) as [line Hl]; [lia|].
    exists line. split; [done|]. rewrite Forall_forall in Hrows.
    apply Hrows. by eapply list_elem_of_lookup_2. }
  split; [|split; [|split]].
  - by intros ->.
  - intros a -> Ha. cbn [bind]. unfold getitem at 1.
    by rewrite lookup_ge_None_2 by lia.
  - intros a -> Ha Hd. cbn [bind].
    destruct (Hline a Ha) as (line & Hl & _).
    unfold getitem at 1. rewrite Hl. cbn [bind]. by rewrite Hd.
  - intros a b -> Ha -> Hb. cbn [bind].
    destruct (Hline a Ha) as (line & Hl & Hll).
    unfold getitem at 1. rewrite Hl. cbn [bind].
    unfold getitem at 1. by rewrite lookup_ge_None_2 by lia.
Qed.

Lemma to_matr_missing_station_witness :
  to_matr [(10%Z, 0); (20%Z, 1)]
    ([Row 1 10 20 5 60] ++ Row 2 20 30 7 30 :: [Row 3 10 20 1 10]) 0
  = Raise KeyError /\
  to_matr [(10%Z, 7)] ([] ++ Row 1 10 99 5 60 :: []) 0 = Raise IndexError.
Proof.
  split.
  - destruct (to_matr_missing_station [(10%Z, 0); (20%Z, 1)]
                [Row 1 10 20 5 60] [Row 3 10 20 1 10] (Row 2 20 30 7 30) 0)
      as (_ & _ & H & _).
    + left. reflexivity.
    + unfold covers. apply Forall_forall. repeat constructor.
      exists 0, 1. repeat split; simpl; lia.
    + apply (H 1); [reflexivity | simpl; lia | reflexivity].
  - destruct (to_matr_missing_station [(10%Z, 7)] [] []
                (Row 1 10 99 5 60) 0) as (_ & H & _).
    + left. reflexivity.
    + intros r Hr. by apply elem_of_nil in Hr.
    + apply (H 7); [reflexivity | simpl; lia].
Defined.

Lemma relax_comm (a b c : num) : relax a (relax b c) = relax b (relax a c).
Proof.
  destruct a as [x|], b as [y|], c as [z|]; unfold relax; simpl;
    repeat match goal with
           | |- context [(?p <? ?q)%Z] => destruct (Z.ltb_spec p q); simpl
           end;
    try reflexivity; f_equal; lia.
Qed.

Lemma relax_all_Permutation (v : dict) (kind : Z) (i j : nat)
    (data data' : list row) (cell : num) :
  data ≡ₚ data' ->
  relax_all v kind i j data cell = relax_all v kind i j data' cell.
Proof.
  intros Hp. revert cell.
  induction Hp as [|r l l' _ IH|r1 r2 l|l1 l2 l3 _ IH1 _ IH2];
    intros cell; simpl.
  - done.
  - apply IH.
  - f_equal. repeat case_decide; try done. apply relax_comm.
  - by rewrite IH1.
Qed.

Lemma matrix_ok_ext (N : nat) (m1 m2 : list (list num)) :
  matrix_ok N m1 -> matrix_ok N m2 ->
  (forall i j, i < N -> j < N -> edge m1 i j = edge m2 i j) ->
  m1 = m2.
Proof.
  intros [Hl1 Hr1] [Hl2 Hr2] Hcell. rewrite Forall_forall in Hr1, Hr2.
  apply list_eq. intros i.
  destruct (decide (i < N)) as [Hi|Hi].
  2:{ rewrite !lookup_ge_None_2 by lia. done. }
  destruct (lookup_lt_is_Some_2 m1 i) as [l1 H1]; [lia|].
  destruct (lookup_lt_is_Some_2 m2 i) as [l2 H2]; [lia|].
  rewrite H1, H2. f_equal.
  assert (length l1 = N) as Hn1 by (apply Hr1; by eapply list_elem_of_lookup_2).
  assert (length l2 = N) as Hn2 by (apply Hr2; by eapply list_elem_of_lookup_2).
  apply list_eq. intros j.
  destruct (decide (j < N)) as [Hj|Hj].
  2:{ rewrite !lookup_ge_None_2 by lia. done. }
  specialize (Hcell i j Hi Hj). unfold edge, getitem in Hcell.
  rewrite H1, H2 in Hcell. simpl in Hcell.
  destruct (l1 !! j) eqn:E1, (l2 !! j) eqn:E2; congruence.
Qed.

(** X9. The matrix does not depend on the order of the records: for a
    recognized dimension and a station index that covers them, any
    rearrangement of the records gives the same matrix. *)
Theorem to_matr_Permutation (v : dict) (data data' : list row) (kind : Z) :
  (kind = 0 \/ kind = 1)%Z ->
  covers v data ->
  data ≡ₚ data' ->
  exists matr, to_matr v data kind = Ok matr /\ to_matr v data' kind = Ok matr.
Proof.
  intros Hkind Hcov Hp.
  assert (covers v data') as Hcov'.
  { intros r Hr. apply Hcov. by rewrite Hp. }
  unfold to_matr.
  destruct (to_matr_loop_Ok v kind data _ Hkind
              (matrix_ok_replicate (length v)) Hcov) as (m1 & -> & Hok1 & Hc1).
  destruct (to_matr_loop_Ok v kind data' _ Hkind
              (matrix_ok_replicate (length v)) Hcov') as (m2 & -> & Hok2 & Hc2).
  exists m1. split; [done|]. f_equal. symmetry.
  apply (matrix_ok_ext (length v)); [done|done|].
  intros i j Hi Hj.
  rewrite (Hc1 i j Inf), (Hc2 i j Inf) by (by apply edge_replicate).
  f_equal. by apply relax_all_Permutation.
Qed.

Lemma to_matr_Permutation_witness :
  exists matr,
    to_matr [(100%Z, 0); (200%Z, 1)]
      [Row 1 100 200 20 60; Row 2 200 100 8 90] 0 = Ok matr /\
    to_matr [(100%Z, 0); (200%Z, 1)]
      [Row 2 200 100 8 90; Row 1 100 200 20 60] 0 = Ok matr.
Proof.
  apply (to_matr_Permutation [(100%Z, 0); (200%Z, 1)]
           [Row 1 100 200 20 60; Row 2 200 100 8 90]
           [Row 2 200 100 8 90; Row 1 100 200 20 60] 0).
  - left. reflexivity.
  - unfold covers. apply Forall_forall. repeat constructor.
    + exists 0, 1. repeat split; simpl; lia.
    + exists 1, 0. repeat split; simpl; lia.
  - apply perm_swap.
Defined.

(** ** More on the station indexer *)

Lemma index_station_prefix (v : dict) (s : Z) : v `prefix_of` index_station v s.
Proof.
  unfold index_station. destruct (dict_mem v s) eqn:E; [done|].
  rewrite dict_set_fresh.
  - by apply prefix_app_r.
  - intros Hs. apply dict_mem_keys in Hs. congruence.
Qed.

Lemma index_stations_prefix (l : list Z) (v : dict) :
  v `prefix_of` fold_left index_station l v.
Proof.
  revert v. induction l as [|s l IH]; intros v; simpl; [done|].
  etrans; [apply index_station_prefix | apply IH].
Qed.

Lemma dict_lookup_app (v w : dict) (s : Z) (i : nat) :
  dict_lookup v s = Some i -> dict_lookup (v ++ w) s = Some i.
Proof.
  induction v as [|[k x] v IH]; simpl; [done|].
  case_decide; [done | apply IH].
Qed.

Lemma index_station_known (v : dict) (s : Z) :
  s ∈ v.*1 -> index_station v s = v.
Proof.
  intros Hs. unfold index_station.
  apply dict_mem_keys in Hs. by rewrite Hs.
Qed.

(** X10. Further records never renumber a station: the mapping of
    [d1 ++ d2] starts with the mapping of [d1], so every station of [d1]
    keeps its index; and when [d2] names no new station the mapping is
    that of [d1]. *)
Theorem station_index_app (d1 d2 : list row) :
  station_index d1 `prefix_of` station_index (d1 ++ d2) /\
  (forall s i, dict_get (station_index d1) s = Ok i ->
     dict_get (station_index (d1 ++ d2)) s = Ok i) /\
  ((forall s, s ∈ stations d2 -> s ∈ stations d1) ->
     station_index (d1 ++ d2) = station_index d1).
Proof.
  assert (station_index (d1 ++ d2)
          = fold_left index_station (stations d2) (station_index d1)) as Happ.
  { unfold station_index. by rewrite fold_left_app, station_index_stations. }
  split; [|split].
  - rewrite Happ. apply index_stations_prefix.
  - intros s i Hs. apply dict_get_Ok in Hs. apply dict_get_Ok.
    destruct (index_stations_prefix (stations d2) (station_index d1))
      as [w Hw].
    rewrite Happ, Hw. by apply dict_lookup_app.
  - intros Hknown. rewrite Happ.
    assert (forall s, s ∈ stations d2 -> s ∈ (station_index d1).*1) as Hin.
    { intros s Hs. rewrite station_index_keys. by apply first_seen_elem, Hknown. }
    clear Hknown Happ. generalize dependent (station_index d1). intros v Hin.
    induction (stations d2) as [|s l IH]; simpl; [done|].
    rewrite index_station_known by (apply Hin; by left).
    apply IH. intros s' Hs'. apply Hin. by right.
Qed.

Lemma station_index_app_witness :
  dict_get (station_index ([Row 1 30 10 5 60] ++ [Row 2 20 30 7 30])) 10 = Ok 1.
Proof.
  apply (proj1 (proj2 (station_index_app [Row 1 30 10 5 60]
                         [Row 2 20 30 7 30]))).
  reflexivity.
Defined.

(** ** The ranking pass *)


















Example ranking_run :
  ranking (station_index ranking_data) ranking_data 0
  = Some (Ok [(Fin 4, [2; 1; 0]); (Fin 15, [0; 1; 2]); (Fin 52, [1; 0; 2])]).
Proof. reflexivity. Qed.










Example main_pass_run :
  main_pass ranking_data 0
  = Some (Ok [(1, Fin 4, [30; 20; 10]%Z); (2, Fin 15, [10; 20; 30]%Z);
              (3, Fin 52, [20; 10; 30]%Z)]).
Proof. reflexivity. Qed.

(** ** The travel time *)

(** X14. The travel time kept by [prepare_data] is never negative: it is
    below 86400 and a whole number of minutes; it is the plain
    difference when the arrival is not before the departure, and an
    arrival before the departure counts as one on the next day. *)
Theorem travel_seconds_range (tm1 tm2 : clock) :
  clock_ok tm1 -> clock_ok tm2 ->
  (0 <= travel_seconds tm1 tm2 < 86400)%Z /\
  (travel_seconds tm1 tm2 mod 60 = 0)%Z /\
  ((clock_seconds tm1 <= clock_seconds tm2)%Z ->
     travel_seconds tm1 tm2 = (clock_seconds tm2 - clock_seconds tm1)%Z) /\
  ((clock_seconds tm2 < clock_seconds tm1)%Z ->
     travel_seconds tm1 tm2
     = (clock_seconds tm2 - clock_seconds tm1 + 86400)%Z).
Proof.
  intros [Hh1 Hm1] [Hh2 Hm2]. unfold travel_seconds, clock_sub. simpl.
  unfold clock_seconds.
  set (d := (hour tm2 * 3600 + minute tm2 * 60
             - (hour tm1 * 3600 + minute tm1 * 60))%Z).
  assert (-86400 < d < 86400)%Z as Hd by (unfold d; lia).
  assert ((d < 0 -> d mod 86400 = d + 86400)
          /\ (0 <= d -> d mod 86400 = d))%Z as [Hneg Hpos].
  { split; intros H.
    - replace d with (d + 86400 + (-1) * 86400)%Z at 1 by lia.
      rewrite Z.mod_add by lia. apply Z.mod_small. lia.
    - apply Z.mod_small. lia. }
  split; [apply Z.mod_pos_bound; lia|]. split; [|split].
  - replace d with (60 * (hour tm2 * 60 + minute tm2
                          - (hour tm1 * 60 + minute tm1)))%Z by (unfold d; lia).
    change 86400%Z with (60 * 1440)%Z.
    rewrite Z.mul_mod_distr_l by lia.
    rewrite Z.mul_comm. apply Z.mod_mul. lia.
  - intros H. apply Hpos. unfold d. lia.
  - intros H. apply Hneg. unfold d. lia.
Qed.

Lemma travel_seconds_range_witness :
  travel_seconds (Clock 23 30) (Clock 1 15) = 6300%Z.
Proof.
  destruct (travel_seconds_range (Clock 23 30) (Clock 1 15))
    as (_ & _ & _ & H).
  - unfold clock_ok. simpl. lia.
  - unfold clock_ok. simpl. lia.
  - rewrite H; [reflexivity | unfold clock_seconds; simpl; lia].
Defined.

(** ** The path finder over any arithmetic *)

Section ArithFacts.
Context {T : Type} (O : Arith.ops T).

Lemma arith_next_loop_pick (N : nat) (g : list (list T)) (seen : list bool)
    (node : nat) (range : list nat) (mn : Z * T) (tc : T)
    (mn' : Z * T) (tc' : T) :
  (forall i, i ∈ range -> i < N) ->
  (mn.1 = (-1)%Z \/
   exists j, j < N /\ mn.1 = Z.of_nat j /\ seen !! j = Some false /\
     Arith.cell g node j = Ok tc) ->
  Arith.next_loop O g seen node range mn tc = Ok (mn', tc') ->
  mn'.1 = (-1)%Z \/
  exists j, j < N /\ mn'.1 = Z.of_nat j /\ seen !! j = Some false /\
    Arith.cell g node j = Ok tc'.
Proof.
  revert mn tc. induction range as [|i range IH]; intros mn tc Hr Hmn H;
    simpl in H.
  - by injection H as <- <-.
  - assert (forall i', i' ∈ range -> i' < N) as Hr'
      by (intros i' Hi'; apply Hr; by right).
    bind_inv H. apply getitem_Ok in Ha. destruct a; simpl in H.
    + by apply (IH _ _ Hr' Hmn).
    + bind_inv H. destruct (Arith.lt O a mn.2).
      * apply (IH _ _ Hr') in H; [done|]. right. exists i.
        split; [apply Hr; by left|]. done.
      * by apply (IH _ _ Hr' Hmn).
Qed.

Lemma arith_next_Some (N : nat) (g : list (list T)) (seen : list bool)
    (node : nat) (c c' : T) (j : nat) :
  Arith.next O N g seen node c = Ok (Some (c', j)) ->
  j < N /\ seen !! j = Some false /\
  exists w, Arith.cell g node j = Ok w /\ c' = Arith.add O c w.
Proof.
  unfold Arith.next. intros H. bind_inv H. destruct a as [mn tc]. simpl in H.
  apply (arith_next_loop_pick N) in Ha.
  - destruct (mn.1 =? -1)%Z eqn:E; [done|]. apply Z.eqb_neq in E.
    destruct Ha as [Ha|(i & Hi & Hmn & Hs & Hc)]; [done|].
    injection H as <- <-. rewrite Hmn, Nat2Z.id. eauto.
  - intros i Hi. apply elem_of_seq in Hi. lia.
  - by left.
Qed.

Lemma arith_accumulate_snoc (g : list (list T)) (c0 c w : T)
    (p : list nat) (a b : nat) :
  Arith.accumulate O g c0 (p ++ [a]) = Ok c ->
  Arith.cell g a b = Ok w ->
  Arith.accumulate O g c0 ((p ++ [a]) ++ [b]) = Ok (Arith.add O c w).
Proof.
  revert c0. induction p as [|x p IH]; intros c0 Hc Hw.
  - simpl in *. injection Hc as <-. by rewrite Hw.
  - change ((x :: p) ++ [a]) with (x :: (p ++ [a])) in *.
    change ((x :: p ++ [a]) ++ [b]) with (x :: ((p ++ [a]) ++ [b])).
    destruct (p ++ [a]) as [|y q] eqn:E; [by destruct p|].
    change ((y :: q) ++ [b]) with (y :: (q ++ [b])) in *.
    cbn [Arith.accumulate] in Hc. bind_inv Hc.
    cbn [Arith.accumulate]. rewrite Ha. cbn [bind].
    by apply IH.
Qed.

Lemma arith_walk_inv_initial (N : nat) (g : list (list T)) (start : nat) :
  start < N -> Arith.walk_inv O N g start (Arith.initial O N start).
Proof.
  intros H. split; simpl.
  - apply length_replicate.
  - apply consistent_initial.
  - by apply lookup_replicate.
  - done.
  - done.
Qed.

(** One call: the marks, the path and the cost after it. *)
Lemma arith_tsp_body_Ok (N : nat) (g : list (list T)) (start : nat)
    (fr : Arith.frame) (o : Arith.outcome) :
  Arith.walk_inv O N g start fr ->
  Arith.tsp_body O N g fr = Ok o ->
  match o with
  | Arith.Return result s p =>
      length s = N /\ consistent s p /\ head p = Some start /\
      Arith.accumulate O g (Arith.zero O) p = Ok (Arith.cost fr) /\
      (result = Some (Arith.cost fr) /\ length p = N \/ result = None)
  | Arith.Recurse fr' => Arith.walk_inv O N g start fr'
  end.
Proof.
  intros [Hlen Hcons Hfresh Hstart Hcost] H. unfold Arith.tsp_body in H.
  bind_inv H. apply setitem_Ok in Ha as [Hlt ->]. bind_inv H.
  rename a into nd, Ha into Hnd.
  pose proof (consistent_mark _ _ _ Hcons Hfresh) as Hc'.
  destruct (_ =? _) eqn:E.
  - apply Nat.eqb_eq in E. injection H as <-.
    rewrite length_insert. auto 10.
  - destruct nd as [[c j]|]; injection H as <-.
    + apply arith_next_Some in Hnd as (Hj & Hsj & w & Hw & ->).
      split; simpl.
      * by rewrite length_insert.
      * done.
      * done.
      * rewrite <- Hstart. by destruct (Arith.path fr).
      * by apply arith_accumulate_snoc.
    + rewrite length_insert. auto 10.
Qed.

Lemma arith_tsp_result (N : nat) (g : list (list T)) (start fuel : nat)
    (fr : Arith.frame) (c : T) (p : list nat) :
  Arith.walk_inv O N g start fr ->
  Arith.tsp O fuel N g fr = Some (Ok (Some c, p)) ->
  length p = N /\ p ≡ₚ seq 0 N /\ head p = Some start /\
  Arith.accumulate O g (Arith.zero O) p = Ok c.
Proof.
  revert fr. induction fuel as [|fuel IH]; intros fr Hinv H; [done|].
  simpl in H.
  destruct (Arith.tsp_body O N g fr) as [o|e] eqn:Hbody; [|done].
  pose proof (arith_tsp_body_Ok _ _ _ _ _ Hinv Hbody) as Ho.
  destruct o as [result s p'|fr'].
  - injection H as -> ->.
    destruct Ho as (Hls & Hcons & Hhead & Hacc & [[[= ->] Hlp]|[=]]).
    split; [done|]. split; [|done].
    rewrite <- Hls. apply consistent_full; [done|lia].
  - by apply (IH fr').
Qed.

Lemma arith_find_best_Some (N : nat) (g : list (list T)) (start : nat)
    (c : T) (p : list nat) :
  Arith.find_best O N g start = Some (Ok (Some (c, p))) ->
  length p = N /\ p ≡ₚ seq 0 N /\ head p = Some start /\
  Arith.accumulate O g (Arith.zero O) p = Ok c.
Proof.
  unfold Arith.find_best, Arith.find_best_fuel. intros H.
  destruct (Arith.tsp O (S N) N g (Arith.initial O N start))
    as [[[[c0|] p0]|e]|] eqn:E; try done.
  destruct (Arith.truth O c0); [|done]. injection H as -> ->.
  destruct (decide (start < N)) as [Hs|Hs].
  - eapply arith_tsp_result; [by apply arith_walk_inv_initial | done].
  - simpl in E. unfold Arith.tsp_body, setitem in E. simpl in E.
    rewrite length_replicate, decide_False in E by done. done.
Qed.

End ArithFacts.

(** On the exact numbers [Arith.find_best] is [find_best]. *)
Lemma int_next_loop (g : list (list num)) (seen : list bool) (node : nat)
    (range : list nat) (mn : Z * num) (tc : num) :
  Arith.next_loop int_ops g seen node range mn tc
  = next_loop g seen node range mn tc.
Proof.
  revert mn tc. induction range as [|i range IH]; intros mn tc; simpl; [done|].
  destruct (getitem seen i) as [[]|e]; simpl; [apply IH| |done].
  change (Arith.cell g node i) with (edge g node i).
  destruct (edge g node i) as [w|e]; simpl; [|done].
  destruct (num_ltb w mn.2); apply IH.
Qed.

Lemma int_tsp_body (N : nat) (g : list (list num)) (fr : Arith.frame) :
  tsp_body N g (int_frame fr)
  = (o <- Arith.tsp_body int_ops N g fr ;; Ok (int_outcome o)).
Proof.
  unfold tsp_body, Arith.tsp_body, next, Arith.next.
  cbn [int_frame seen path node cost].
  destruct (setitem (Arith.seen fr) (Arith.node fr) true) as [s|e];
    cbn [bind]; [|done].
  change (Arith.next_loop int_ops g s (Arith.node fr) (seq 0 N)
            ((-1)%Z, Arith.inf int_ops) (Arith.zero int_ops))
    with (next_loop g s (Arith.node fr) (seq 0 N) ((-1)%Z, Inf) (Fin 0)).
  destruct (next_loop g s (Arith.node fr) (seq 0 N) ((-1)%Z, Inf) (Fin 0))
    as [[mn tc]|e]; cbn [bind]; [|done].
  simpl. destruct (mn.1 =? -1)%Z; simpl; destruct (_ =? N); done.
Qed.

Lemma int_tsp (fuel N : nat) (g : list (list num)) (fr : Arith.frame) :
  Arith.tsp int_ops fuel N g fr = tsp fuel N g (int_frame fr).
Proof.
  revert fr. induction fuel as [|fuel IH]; intros fr; simpl; [done|].
  rewrite int_tsp_body.
  destruct (Arith.tsp_body int_ops N g fr) as [[r s p|fr']|e]; simpl;
    [done|apply IH|done].
Qed.

Lemma int_find_best (N : nat) (g : list (list num)) (start : nat) :
  Arith.find_best int_ops N g start = find_best N g start.
Proof.
  unfold Arith.find_best, Arith.find_best_fuel, find_best, find_best_fuel.
  by rewrite int_tsp.
Qed.

(** ** The returned path and its cost *)

Example prices_rounding_run :
  Arith.find_best float_ops 3 prices_rounding 0
  = Some (Ok (Some (0x1p+53%float, [0; 1; 2]))).
Proof. reflexivity. Qed.

Example prices_overflow_run :
  Arith.find_best float_ops 3
    [ [infinity; 0x1p+1023%float; infinity];
      [infinity; infinity; 0x1p+1023%float];
      [infinity; infinity; infinity] ] 0
  = Some (Ok (Some (infinity, [0; 1; 2]))).
Proof. reflexivity. Qed.

Example int_find_best_run :
  Arith.find_best int_ops 3 scenario_a 0
  = Some (Ok (Some (Fin 15, [0; 1; 2]))).
Proof. reflexivity. Qed.

(** On float prices the returned cost is not always the exact sum of the
    cells of the path: [2 ** 53 + 1] is returned as [2 ** 53]. *)
Lemma find_best_float_cost_inexact :
  ~ (forall (N : nat) (g : list (list float)) (start : nat) (c : float)
            (p : list nat),
       Arith.find_best float_ops N g start = Some (Ok (Some (c, p))) ->
       exact_path_sum g p = exact c).
Proof.
  intros H.
  specialize (H 3 prices_rounding 0 0x1p+53%float [0; 1; 2] eq_refl).
  vm_compute in H. discriminate H.
Qed.

(** C2. Path validity, for the arithmetic of the weights whatever it is:
    a returned path has length [N], holds each index below [N] exactly
    once and starts with the start node, and the returned cost is what
    the additions of the cells of its consecutive pairs to 0 give, one
    after the other in the order of the path. On the exact numbers, where
    [Arith.find_best] is [find_best], that is the sum of the cells. *)
Theorem find_best_path_accumulated :
  (forall (T : Type) (O : Arith.ops T) (N : nat) (g : list (list T))
          (start : nat) (c : T) (p : list nat),
     Arith.find_best O N g start = Some (Ok (Some (c, p))) ->
     length p = N /\
     p ≡ₚ seq 0 N /\
     (forall i, i < N -> count_occ Nat.eq_dec p i = 1) /\
     (forall i, N <= i -> count_occ Nat.eq_dec p i = 0) /\
     head p = Some start /\
     Arith.accumulate O g (Arith.zero O) p = Ok c)
  /\
  (forall (N : nat) (g : list (list num)) (start : nat) (c : num)
          (p : list nat),
     find_best N g start = Some (Ok (Some (c, p))) ->
     Arith.find_best int_ops N g start = Some (Ok (Some (c, p))) /\
     path_cost g p = Ok c).
Proof.
  split.
  - intros T O N g start c p H.
    destruct (arith_find_best_Some O N g start c p H)
      as (Hlen & Hperm & Hhead & Hacc).
    assert (forall i, count_occ Nat.eq_dec p i
                      = count_occ Nat.eq_dec (seq 0 N) i) as Hcount.
    { intros i. by apply Permutation_count_occ. }
    split; [done|]. split; [done|]. split; [|split; [|done]].
    + intros i Hi. rewrite Hcount.
      pose proof (proj1 (NoDup_count_occ Nat.eq_dec (seq 0 N))
                    (List.seq_NoDup N 0) i) as Hle.
      assert (In i (seq 0 N)) as Hin by (apply in_seq; lia).
      apply (count_occ_In Nat.eq_dec) in Hin. lia.
    + intros i Hi. rewrite Hcount. apply count_occ_not_In.
      rewrite in_seq. lia.
  - intros N g start c p H. split; [by rewrite int_find_best|].
    by apply find_best_Some_path in H as (_ & _ & _ & Hcost & _).
Qed.

Lemma find_best_path_accumulated_witness :
  Arith.accumulate float_ops prices_rounding 0%float [0; 1; 2]
    = Ok 0x1p+53%float /\
  path_cost scenario_a [0; 1; 2] = Ok (Fin 15).
Proof.
  split.
  - apply (proj1 find_best_path_accumulated float float_ops 3
             prices_rounding 0 0x1p+53%float [0; 1; 2]).
    reflexivity.
  - apply (proj2 find_best_path_accumulated 3 scenario_a 0 (Fin 15)
             [0; 1; 2]).
    reflexivity.
Defined.
